(** * Image action pipeline: format and watermark actions

    A shallow embedding of the two image actions of the image handler,
    [FormatAction] and [WatermarkAction] (under [processor/image]),
    together with the part of the JavaScript runtime they rely on.

    Conventions of the embedding.
    - A request token (an element of [params: string[]]) is a [string]
      whose characters are read as UTF-16 code units below 256.
    - A decoded text (the result of [Buffer.toString('utf-8')], the
      argument of [calculateTextSize]) is a list of code points, the
      sequence [for (let v of text)] enumerates.
    - A JavaScript number produced by [Number.parseInt] is [NaN] or an
      integer.  Integers are kept exact; the source only compares them
      against small bounds and adds image dimensions to them, which the
      double representation does exactly below 2^53.
    - The arithmetic of [calculateTextSize] is not exact in the source
      (it multiplies by 0.8 and by 1.2), so that function is written over
      an interface of arithmetic operations with two instances: IEEE
      binary64 (what the source runs on) and exact rationals.
    - [throw new InvalidArgument(msg)] is the [Throw] case of [result]. *)

From Stdlib Require Import ZArith String Ascii List Bool Lia QArith Qround.
From Stdlib Require Import PrimFloat.
From stdpp Require Import gmap strings.
Import ListNotations.

Local Open Scope string_scope.
Local Open Scope Z_scope.

(** ** Exceptions *)

Inductive exn : Type :=
| InvalidArgument (message : string)
| EngineError (message : string).

Inductive result (A : Type) : Type :=
| Ok (a : A)
| Throw (e : exn).
Arguments Ok {A} a.
Arguments Throw {A} e.

Definition bind {A B : Type} (r : result A) (k : A -> result B) : result B :=
  match r with
  | Ok a => k a
  | Throw e => Throw e
  end.

Notation "'do' x <- r ; k" := (bind r (fun x => k))
  (at level 10, x name, r at level 100, k at level 200).

(** ** The JavaScript runtime *)

Module JS.

(** *** Numbers produced by [Number.parseInt] *)

Inductive number : Type :=
| NaN
| Num (z : Z).

(** [a < b], [a > b], [a <= b], [a >= b]: every comparison with [NaN]
    is false. *)
Definition lt (a b : number) : bool :=
  match a, b with
  | Num x, Num y => x <? y
  | _, _ => false
  end.

Definition gt (a b : number) : bool := lt b a.

Definition le (a b : number) : bool :=
  match a, b with
  | Num x, Num y => x <=? y
  | _, _ => false
  end.

Definition ge (a b : number) : bool := le b a.

(** [a === b] on numbers: [NaN] is not equal to itself. *)
Definition strict_eq (a b : number) : bool :=
  match a, b with
  | Num x, Num y => x =? y
  | _, _ => false
  end.

Definition add (a b : number) : number :=
  match a, b with
  | Num x, Num y => Num (x + y)
  | _, _ => NaN
  end.

Definition sub (a b : number) : number :=
  match a, b with
  | Num x, Num y => Num (x - y)
  | _, _ => NaN
  end.

(** Truthiness: [0] and [NaN] are falsy, so is [undefined]. *)
Definition truthy_number (a : number) : bool :=
  match a with
  | Num z => negb (z =? 0)
  | NaN => false
  end.

Definition truthy_opt_number (a : option number) : bool :=
  match a with
  | Some n => truthy_number n
  | None => false
  end.

Definition truthy_string (s : string) : bool :=
  match s with
  | EmptyString => false
  | String _ _ => true
  end.

(** [Math.round] of an exact rational: the nearest integer, a tie
    going towards plus infinity. *)
Definition Math_round (q : Q) : Z := Qfloor (q + (1 # 2))%Q.

(** *** Strings *)

(** [s.split(sep)] for a one-character separator: never empty. *)
Fixpoint split (sep : ascii) (s : string) : list string :=
  match s with
  | EmptyString => [EmptyString]
  | String c r =>
      if Ascii.eqb c sep then EmptyString :: split sep r
      else match split sep r with
           | h :: t => String c h :: t
           | [] => [String c EmptyString]
           end
  end.

(** [list.includes(s)] *)
Definition includes (l : list string) (s : string) : bool :=
  existsb (String.eqb s) l.

(** [s.startsWith(p)] and [s.endsWith(p)] *)
Definition startsWith (s p : string) : bool := String.prefix p s.

Definition endsWith (s p : string) : bool :=
  let n := String.length s in
  let m := String.length p in
  (m <=? n)%nat && String.eqb (String.substring (n - m) m s) p.

(** [list.toString()]: the elements joined by commas. *)
Definition toString (l : list string) : string := String.concat "," l.

(** *** [Number.parseInt(v, 10)] *)

Definition is_white (c : ascii) : bool :=
  let n := Z.of_nat (nat_of_ascii c) in
  ((9 <=? n) && (n <=? 13)) || (n =? 32) || (n =? 160).

Fixpoint trim_start (s : string) : string :=
  match s with
  | String c r => if is_white c then trim_start r else s
  | EmptyString => s
  end.

Definition digit_of (c : ascii) : option Z :=
  let n := Z.of_nat (nat_of_ascii c) in
  if (48 <=? n) && (n <=? 57) then Some (n - 48) else None.

(** The longest prefix of decimal digits, read as an integer; [None]
    when the string does not start with a digit. *)
Fixpoint digits (s : string) (acc : option Z) : option Z :=
  match s with
  | String c r =>
      match digit_of c with
      | Some d =>
          digits r (Some (10 * match acc with Some a => a | None => 0 end + d))
      | None => acc
      end
  | EmptyString => acc
  end.

Definition parseInt_string (s : string) : number :=
  let s := trim_start s in
  let '(sign, s) :=
    match s with
    | String "-" r => (-1, r)
    | String "+" r => (1, r)
    | _ => (1, s)
    end in
  match digits s None with
  | Some n => Num (sign * n)
  | None => NaN
  end.

(** The argument is [undefined] when the token has no underscore;
    [parseInt] then reads the string "undefined", which is [NaN]. *)
Definition parseInt (v : option string) : number :=
  match v with
  | Some s => parseInt_string s
  | None => NaN
  end.

(** *** [Buffer.from(v, 'base64')]

    The decoder of the runtime is lenient: it accepts the standard and
    the URL-safe alphabet, skips every other character, and stops at the
    first padding character.  A trailing group of two or three sextets
    gives one or two bytes; a single trailing sextet gives none. *)

Definition sextet_of (c : ascii) : option Z :=
  let n := Z.of_nat (nat_of_ascii c) in
  if (65 <=? n) && (n <=? 90) then Some (n - 65)
  else if (97 <=? n) && (n <=? 122) then Some (n - 71)
  else if (48 <=? n) && (n <=? 57) then Some (n + 4)
  else if (n =? 43) || (n =? 45) then Some 62
  else if (n =? 47) || (n =? 95) then Some 63
  else None.

Fixpoint sextets (s : string) : list Z :=
  match s with
  | EmptyString => []
  | String c r =>
      if Ascii.eqb c "=" then []
      else match sextet_of c with
           | Some v => v :: sextets r
           | None => sextets r
           end
  end.

Fixpoint bytes_of_sextets (l : list Z) : list Z :=
  match l with
  | a :: b :: c :: d :: r =>
      Z.lor (Z.shiftl a 2) (Z.shiftr b 4)
        :: Z.lor (Z.shiftl (Z.land b 15) 4) (Z.shiftr c 2)
        :: Z.lor (Z.shiftl (Z.land c 3) 6) d
        :: bytes_of_sextets r
  | [a; b; c] =>
      [Z.lor (Z.shiftl a 2) (Z.shiftr b 4);
       Z.lor (Z.shiftl (Z.land b 15) 4) (Z.shiftr c 2)]
  | [a; b] => [Z.lor (Z.shiftl a 2) (Z.shiftr b 4)]
  | _ => []
  end.

Definition Buffer_from_base64 (v : string) : list Z :=
  bytes_of_sextets (sextets v).

(** *** [buff.toString('utf-8')]

    The decoder replaces every maximal ill-formed subsequence by
    U+FFFD.  Its state is the code point under construction, the number
    of continuation bytes still needed and the bounds of the next
    continuation byte. *)

Record utf8_state : Type := {
  code_point : Z;
  bytes_needed : nat;
  lower_boundary : Z;
  upper_boundary : Z
}.

Definition utf8_initial : utf8_state :=
  {| code_point := 0; bytes_needed := 0;
     lower_boundary := 128; upper_boundary := 191 |}.

Definition replacement : Z := 65533.

(** A byte read when no continuation byte is expected. *)
Definition utf8_lead (b : Z) : list Z * utf8_state :=
  if b <=? 127 then ([b], utf8_initial)
  else if (194 <=? b) && (b <=? 223) then
    ([], {| code_point := Z.land b 31; bytes_needed := 1;
            lower_boundary := 128; upper_boundary := 191 |})
  else if (224 <=? b) && (b <=? 239) then
    ([], {| code_point := Z.land b 15; bytes_needed := 2;
            lower_boundary := if b =? 224 then 160 else 128;
            upper_boundary := if b =? 237 then 159 else 191 |})
  else if (240 <=? b) && (b <=? 244) then
    ([], {| code_point := Z.land b 7; bytes_needed := 3;
            lower_boundary := if b =? 240 then 144 else 128;
            upper_boundary := if b =? 244 then 143 else 191 |})
  else ([replacement], utf8_initial).

Definition utf8_step (st : utf8_state) (b : Z) : list Z * utf8_state :=
  match bytes_needed st with
  | O => utf8_lead b
  | S n =>
      if (lower_boundary st <=? b) && (b <=? upper_boundary st) then
        let cp := Z.lor (Z.shiftl (code_point st) 6) (Z.land b 63) in
        match n with
        | O => ([cp], utf8_initial)
        | S _ =>
            ([], {| code_point := cp; bytes_needed := n;
                    lower_boundary := 128; upper_boundary := 191 |})
        end
      else
        let '(out, st') := utf8_lead b in (replacement :: out, st')
  end.

Fixpoint utf8_decode (st : utf8_state) (bytes : list Z) : list Z :=
  match bytes with
  | [] =>
      match bytes_needed st with
      | O => []
      | S _ => [replacement]
      end
  | b :: r => let '(out, st') := utf8_step st b in out ++ utf8_decode st' r
  end.

Definition toString_utf8 (bytes : list Z) : list Z :=
  utf8_decode utf8_initial bytes.

(** The first UTF-16 code unit of a code point: [v.charCodeAt(0)] for
    the one-character string [v] that [for ... of] yields. *)
Definition charCodeAt0 (cp : Z) : Z :=
  if 65535 <? cp then 55296 + (cp - 65536) / 1024 else cp.

End JS.

(** ** The image engine and the request context

    The engine ([sharp]) is a collaborator of the two actions: its
    handles, buffers and operations are parameters of the embedding.  The
    feature keys come from an enumeration declared outside of the two
    actions, they are parameters as well. *)

Module Metadata.
(** [sharp.Metadata], the two fields the watermark placement reads. *)
Record T : Type := { width : option Z; height : option Z }.
End Metadata.

Module IImageContext.
Record T (Sharp BufferStore : Type) : Type := {
  image : Sharp;
  bufferStore : BufferStore;
  features : gmap string bool
}.
Arguments image {Sharp BufferStore} _.
Arguments bufferStore {Sharp BufferStore} _.
Arguments features {Sharp BufferStore} _.

Definition set_image {Sharp BufferStore} (i : Sharp) (ctx : T Sharp BufferStore) :=
  {| image := i; bufferStore := bufferStore ctx; features := features ctx |}.

Definition set_feature {Sharp BufferStore} (k : string) (b : bool)
    (ctx : T Sharp BufferStore) :=
  {| image := image ctx; bufferStore := bufferStore ctx;
     features := <[k := b]> (features ctx) |}.
End IImageContext.

(** ** The format action *)

Module FormatOpts.
Record T : Type := { format : string }.
End FormatOpts.

Module FormatAction.

Definition name : string := "format".

Definition SUPPORTED_FORMAT : list string :=
  ["jpg"; "jpeg"; "png"; "webp"; "gif"].

Definition validate (params : list string) : result FormatOpts.T :=
  if negb (Nat.eqb (List.length params) 2) then
    Throw (InvalidArgument
             ("Format param error, e.g: format,jpg ("
                ++ JS.toString SUPPORTED_FORMAT ++ ")"))
  else
    let opt := {| FormatOpts.format := nth 1 params "" |} in
    if negb (JS.includes SUPPORTED_FORMAT (FormatOpts.format opt)) then
      Throw (InvalidArgument
               ("Format must be one of " ++ JS.toString SUPPORTED_FORMAT))
    else Ok opt.

Section Engine.

Variables Sharp Buffer BufferStore : Type.
(** [image.toBuffer()] and [sharp(buffer).metadata().pages] *)
Variable toBuffer : Sharp -> result Buffer.
Variable metadata_pages : Buffer -> result (option Z).
(** [sharp(buffer, { page: p })] *)
Variable sharp_page : Buffer -> Z -> Sharp.
(** [image.jpeg()], [image.png({effort, quality})], [image.webp(...)] *)
Variable jpeg : Sharp -> Sharp.
Variable png : Z -> Z -> Sharp -> Sharp.
Variable webp : Z -> Z -> Sharp -> Sharp.
(** [Features.AutoWebp] and [Features.ReadAllAnimatedFrames] *)
Variables AutoWebp ReadAllAnimatedFrames : string.

Definition ctx : Type := IImageContext.T Sharp BufferStore.

(** The hook mutates the feature flags of the process context; a
    failed validation leaves them as they were. *)
Definition beforeNewContext (features : gmap string bool)
    (params : list string) : gmap string bool * result unit :=
  match validate params with
  | Throw e => (features, Throw e)
  | Ok opts =>
      if JS.includes ["webp"; "gif"] (FormatOpts.format opts) then
        (<[ReadAllAnimatedFrames := true]> features, Ok tt)
      else
        (<[ReadAllAnimatedFrames := false]> features, Ok tt)
  end.

(** [process] mutates the context it is given: the result is the
    context after the call together with the outcome of the call.
    The flag [AutoWebp] is cleared before the parameters are
    validated, so the context after a failed call may differ from the
    one before. *)
Definition process (c : ctx) (params : list string) : ctx * result unit :=
  let c :=
    match IImageContext.features c !! AutoWebp with
    | Some true => IImageContext.set_feature AutoWebp false c
    | _ => c
    end in
  match validate params with
  | Throw e => (c, Throw e)
  | Ok opt =>
      if String.eqb "gif" (FormatOpts.format opt) then (c, Ok tt)
      else
        match toBuffer (IImageContext.image c) with
        | Throw e => (c, Throw e)
        | Ok buffer =>
            match metadata_pages buffer with
            | Throw e => (c, Throw e)
            | Ok pages =>
                let srcImgIsAnimated :=
                  match pages with
                  | Some p => negb (p =? 0) && (0 <? p)
                  | None => false
                  end in
                let notToAnimatedFormat :=
                  negb (JS.includes ["webp"; "gif"] (FormatOpts.format opt)) in
                let c :=
                  if srcImgIsAnimated && notToAnimatedFormat
                  then IImageContext.set_image (sharp_page buffer 0) c
                  else c in
                let c :=
                  if JS.includes ["jpeg"; "jpg"] (FormatOpts.format opt) then
                    IImageContext.set_image (jpeg (IImageContext.image c)) c
                  else if String.eqb (FormatOpts.format opt) "png" then
                    IImageContext.set_image (png 2 80 (IImageContext.image c)) c
                  else if String.eqb (FormatOpts.format opt) "webp" then
                    IImageContext.set_image (webp 2 80 (IImageContext.image c)) c
                  else c in
                (c, Ok tt)
            end
        end
  end.

End Engine.

End FormatAction.

(** ** The watermark action *)

Module WatermarkOpts.

(** [text] and [image] are decoded texts; [color] is whatever follows
    the underscore of a [color] token, possibly nothing; [x] and [y]
    are optional. *)
Record T : Type := {
  text : list Z;
  t : JS.number;
  g : string;
  fill : bool;
  rotate : JS.number;
  size : JS.number;
  color : option string;
  image : list Z;
  auto : bool;
  order : JS.number;
  x : option JS.number;
  y : option JS.number;
  voffset : JS.number;
  interval : JS.number;
  align : JS.number
}.

Definition set_text (v : list Z) (o : T) : T :=
  {| text := v; t := t o; g := g o; fill := fill o; rotate := rotate o;
     size := size o; color := color o; image := image o; auto := auto o;
     order := order o; x := x o; y := y o; voffset := voffset o;
     interval := interval o; align := align o |}.

Definition set_t (v : JS.number) (o : T) : T :=
  {| text := text o; t := v; g := g o; fill := fill o;
     rotate := rotate o; size := size o; color := color o;
     image := image o; auto := auto o; order := order o; x := x o;
     y := y o; voffset := voffset o; interval := interval o;
     align := align o |}.

Definition set_g (v : string) (o : T) : T :=
  {| text := text o; t := t o; g := v; fill := fill o;
     rotate := rotate o; size := size o; color := color o;
     image := image o; auto := auto o; order := order o; x := x o;
     y := y o; voffset := voffset o; interval := interval o;
     align := align o |}.

Definition set_fill (v : bool) (o : T) : T :=
  {| text := text o; t := t o; g := g o; fill := v; rotate := rotate o;
     size := size o; color := color o; image := image o; auto := auto o;
     order := order o; x := x o; y := y o; voffset := voffset o;
     interval := interval o; align := align o |}.

Definition set_rotate (v : JS.number) (o : T) : T :=
  {| text := text o; t := t o; g := g o; fill := fill o; rotate := v;
     size := size o; color := color o; image := image o; auto := auto o;
     order := order o; x := x o; y := y o; voffset := voffset o;
     interval := interval o; align := align o |}.

Definition set_size (v : JS.number) (o : T) : T :=
  {| text := text o; t := t o; g := g o; fill := fill o;
     rotate := rotate o; size := v; color := color o; image := image o;
     auto := auto o; order := order o; x := x o; y := y o;
     voffset := voffset o; interval := interval o; align := align o |}.

Definition set_color (v : option string) (o : T) : T :=
  {| text := text o; t := t o; g := g o; fill := fill o;
     rotate := rotate o; size := size o; color := v; image := image o;
     auto := auto o; order := order o; x := x o; y := y o;
     voffset := voffset o; interval := interval o; align := align o |}.

Definition set_image (v : list Z) (o : T) : T :=
  {| text := text o; t := t o; g := g o; fill := fill o;
     rotate := rotate o; size := size o; color := color o; image := v;
     auto := auto o; order := order o; x := x o; y := y o;
     voffset := voffset o; interval := interval o; align := align o |}.

Definition set_auto (v : bool) (o : T) : T :=
  {| text := text o; t := t o; g := g o; fill := fill o;
     rotate := rotate o; size := size o; color := color o;
     image := image o; auto := v; order := order o; x := x o; y := y o;
     voffset := voffset o; interval := interval o; align := align o |}.

Definition set_order (v : JS.number) (o : T) : T :=
  {| text := text o; t := t o; g := g o; fill := fill o;
     rotate := rotate o; size := size o; color := color o;
     image := image o; auto := auto o; order := v; x := x o; y := y o;
     voffset := voffset o; interval := interval o; align := align o |}.

Definition set_x (v : option JS.number) (o : T) : T :=
  {| text := text o; t := t o; g := g o; fill := fill o;
     rotate := rotate o; size := size o; color := color o;
     image := image o; auto := auto o; order := order o; x := v;
     y := y o; voffset := voffset o; interval := interval o;
     align := align o |}.

Definition set_y (v : option JS.number) (o : T) : T :=
  {| text := text o; t := t o; g := g o; fill := fill o;
     rotate := rotate o; size := size o; color := color o;
     image := image o; auto := auto o; order := order o; x := x o;
     y := v; voffset := voffset o; interval := interval o;
     align := align o |}.

Definition set_voffset (v : JS.number) (o : T) : T :=
  {| text := text o; t := t o; g := g o; fill := fill o;
     rotate := rotate o; size := size o; color := color o;
     image := image o; auto := auto o; order := order o; x := x o;
     y := y o; voffset := v; interval := interval o; align := align o |}.

Definition set_interval (v : JS.number) (o : T) : T :=
  {| text := text o; t := t o; g := g o; fill := fill o;
     rotate := rotate o; size := size o; color := color o;
     image := image o; auto := auto o; order := order o; x := x o;
     y := y o; voffset := voffset o; interval := v; align := align o |}.

Definition set_align (v : JS.number) (o : T) : T :=
  {| text := text o; t := t o; g := g o; fill := fill o;
     rotate := rotate o; size := size o; color := color o;
     image := image o; auto := auto o; order := order o; x := x o;
     y := y o; voffset := voffset o; interval := interval o;
     align := v |}.

End WatermarkOpts.

Module WatermarkImgOpts.
Record T : Type := { x : option JS.number; y : option JS.number }.
End WatermarkImgOpts.

Module WatermarkMixedGravityOpts.
Record T : Type := { imgGravity : string; textGravity : string }.
End WatermarkMixedGravityOpts.

(** ** The arithmetic of the text metrics

    [calculateTextSize] adds, multiplies, divides and rounds JavaScript
    numbers.  It is written once over the operations below. *)

Class Arith (num : Type) : Type := {
  (** the number a numeric literal denotes *)
  num_lit : Q -> num;
  num_add : num -> num -> num;
  num_mul : num -> num -> num;
  num_div : num -> num -> num;
  (** [Math.round] *)
  num_round : num -> num
}.

(** IEEE binary64, the numbers of the runtime. *)
Module Float64.

Fixpoint of_pos (p : positive) : float :=
  match p with
  | xH => one
  | xO p => (two * of_pos p)%float
  | xI p => (two * of_pos p + one)%float
  end.

Definition of_Z (z : Z) : float :=
  match z with
  | Z0 => zero
  | Zpos p => of_pos p
  | Zneg p => (- of_pos p)%float
  end.

(** A literal is the double nearest to the decimal it is written as;
    one correctly rounded division gives it when the numerator and the
    denominator are below 2^53. *)
Definition lit (q : Q) : float := (of_Z (Qnum q) / of_pos (Qden q))%float.

Definition two52 : float := Eval cbv in of_Z (2 ^ 52).

(** Below 2^52 in magnitude, adding and subtracting 2^52 rounds to the
    nearest integer; at and above, every double is an integer. *)
Definition floor (x : float) : float :=
  if (abs x <? two52)%float then
    let a := abs x in
    let r := (a + two52 - two52)%float in
    let f := if (a <? r)%float then (r - one)%float else r in
    if (x <? zero)%float then
      if (f =? a)%float then (- f)%float else (- (f + one))%float
    else f
  else x.

(** The nearest integer, a tie going towards plus infinity. *)
Definition round (x : float) : float :=
  let f := floor x in
  if (x - f <? one / two)%float then f else (f + one)%float.

#[export] Instance arith : Arith float :=
  {| num_lit := lit; num_add := PrimFloat.add; num_mul := PrimFloat.mul;
     num_div := PrimFloat.div; num_round := round |}.

End Float64.

(** Exact rational arithmetic. *)
Module Exact.

#[export] Instance arith : Arith Q :=
  {| num_lit := fun q => q; num_add := Qplus; num_mul := Qmult;
     num_div := Qdiv; num_round := fun q => inject_Z (JS.Math_round q) |}.

End Exact.

Module WatermarkTextOpts.
Record T (num : Type) : Type := { width : num; height : num }.
Arguments width {num} _.
Arguments height {num} _.
End WatermarkTextOpts.

Module WatermarkAction.

Definition margin : Z := 5.

Definition name : string := "watermark".

(** The record [validate] starts from. *)
Definition initial : WatermarkOpts.T :=
  {| WatermarkOpts.text := []; WatermarkOpts.t := JS.Num 100;
     WatermarkOpts.g := "se"; WatermarkOpts.fill := false;
     WatermarkOpts.rotate := JS.Num 0; WatermarkOpts.size := JS.Num 40;
     WatermarkOpts.color := Some "000000"; WatermarkOpts.image := [];
     WatermarkOpts.auto := true; WatermarkOpts.order := JS.Num 0;
     WatermarkOpts.x := None; WatermarkOpts.y := None;
     WatermarkOpts.voffset := JS.Num 0; WatermarkOpts.interval := JS.Num 0;
     WatermarkOpts.align := JS.Num 0 |}.

Definition gravity_message : string :=
  "Watermark param 'g' must be in 'north', 'west', 'east', 'south', 'center', 'centre', 'southeast', 'southwest', 'northwest'".

Definition gravityConvert (param : string) : result string :=
  if JS.includes
       ["north"; "west"; "east"; "south"; "center"; "centre";
        "southeast"; "southwest"; "northwest"] param
  then Ok param
  else if String.eqb param "se" then Ok "southeast"
  else if String.eqb param "sw" then Ok "southwest"
  else if String.eqb param "nw" then Ok "northwest"
  else if String.eqb param "ne" then Ok "northeast"
  else Throw (InvalidArgument gravity_message).

(** [Buffer.from(v, 'base64').toString('utf-8')] *)
Definition decode (v : string) : list Z :=
  JS.toString_utf8 (JS.Buffer_from_base64 v).

Definition quote : string := String (ascii_of_nat 34) EmptyString.

(** The branch of the loop body that the key [k] selects; [v] is the
    second piece of the token, absent when the token has no
    underscore. *)
Definition set_option (opt : WatermarkOpts.T) (k : string) (v : option string)
    : result WatermarkOpts.T :=
  if String.eqb k "text" then
    match v with
    | Some s =>
        if JS.truthy_string s then Ok (WatermarkOpts.set_text (decode s) opt)
        else Ok opt
    | None => Ok opt
    end
  else if String.eqb k "image" then
    match v with
    | Some s =>
        if JS.truthy_string s then Ok (WatermarkOpts.set_image (decode s) opt)
        else Ok opt
    | None => Ok opt
    end
  else if String.eqb k "t" then
    Ok (WatermarkOpts.set_t (JS.parseInt v) opt)
  else if String.eqb k "x" then
    let n := JS.parseInt v in
    if JS.lt n (JS.Num 0) || JS.gt n (JS.Num 4096) then
      Throw (InvalidArgument "Watermark param 'x' must be between 0 and 4096")
    else Ok (WatermarkOpts.set_x (Some n) opt)
  else if String.eqb k "y" then
    let n := JS.parseInt v in
    if JS.lt n (JS.Num 0) || JS.gt n (JS.Num 4096) then
      Throw (InvalidArgument "Watermark param 'y' must be between 0 and 4096")
    else Ok (WatermarkOpts.set_y (Some n) opt)
  else if String.eqb k "voffset" then
    let n := JS.parseInt v in
    if JS.lt n (JS.Num (-1000)) || JS.gt n (JS.Num 1000) then
      Throw (InvalidArgument
               "Watermark param 'voffset' must be between -1000 and 1000")
    else Ok (WatermarkOpts.set_voffset n opt)
  else if String.eqb k "order" then
    Ok (WatermarkOpts.set_order (JS.parseInt v) opt)
  else if String.eqb k "interval" then
    let n := JS.parseInt v in
    if JS.lt n (JS.Num 0) || JS.gt n (JS.Num 1000) then
      Throw (InvalidArgument
               "Watermark param 'interval' must be between 0 and 1000")
    else Ok (WatermarkOpts.set_interval n opt)
  else if String.eqb k "align" then
    Ok (WatermarkOpts.set_align (JS.parseInt v) opt)
  else if String.eqb k "g" then
    match v with
    | Some s =>
        do g <- gravityConvert s; Ok (WatermarkOpts.set_g g opt)
    | None => Throw (InvalidArgument gravity_message)
    end
  else if String.eqb k "size" then
    let n := JS.parseInt v in
    if JS.lt n (JS.Num 0) || JS.gt n (JS.Num 1000) then
      Throw (InvalidArgument
               "Watermark param 'size' must be between 0 and 4096")
    else Ok (WatermarkOpts.set_size n opt)
  else if String.eqb k "fill" then
    match v with
    | Some s =>
        if JS.truthy_string s && (String.eqb s "0" || String.eqb s "1") then
          Ok (WatermarkOpts.set_fill (String.eqb s "1") opt)
        else Throw (InvalidArgument "Watermark param 'fill' must be 0 or 1")
    | None => Throw (InvalidArgument "Watermark param 'fill' must be 0 or 1")
    end
  else if String.eqb k "auto" then
    match v with
    | Some s =>
        if JS.truthy_string s && (String.eqb s "0" || String.eqb s "1") then
          Ok (WatermarkOpts.set_auto (String.eqb s "1") opt)
        else Throw (InvalidArgument "Watermark param 'auto' must be 0 or 1")
    | None => Throw (InvalidArgument "Watermark param 'auto' must be 0 or 1")
    end
  else if String.eqb k "rotate" then
    let rotate := JS.parseInt v in
    if JS.le (JS.Num 0) rotate && JS.ge (JS.Num 360) rotate then
      if JS.strict_eq rotate (JS.Num 360)
      then Ok (WatermarkOpts.set_rotate (JS.Num 0) opt)
      else Ok (WatermarkOpts.set_rotate rotate opt)
    else
      Throw (InvalidArgument
               "Watermark param 'rotate' must be between 0 and 360")
  else if String.eqb k "color" then
    Ok (WatermarkOpts.set_color v opt)
  else
    Throw (InvalidArgument ("Unkown param: " ++ quote ++ k ++ quote)).

(** [const [k, v] = param.split('_')] *)
Definition key (param : string) : string :=
  nth 0 (JS.split "_" param) "".

Definition value (param : string) : option string :=
  nth_error (JS.split "_" param) 1.

(** One turn of the loop over the tokens. *)
Definition step (opt : WatermarkOpts.T) (param : string)
    : result WatermarkOpts.T :=
  if String.eqb name param || negb (JS.truthy_string param) then Ok opt
  else set_option opt (key param) (value param).

Fixpoint loop (params : list string) (opt : WatermarkOpts.T)
    : result WatermarkOpts.T :=
  match params with
  | [] => Ok opt
  | param :: rest => do opt' <- step opt param; loop rest opt'
  end.

Definition truthy_text (s : list Z) : bool :=
  match s with
  | [] => false
  | _ :: _ => true
  end.

Definition validate (params : list string) : result WatermarkOpts.T :=
  do opt <- loop params initial;
  if negb (truthy_text (WatermarkOpts.text opt))
     && negb (truthy_text (WatermarkOpts.image opt))
  then
    Throw (InvalidArgument
             "Watermark param 'text' and 'image' should not be empty at the same time")
  else Ok opt.

Section TextSize.

Context {num : Type} {A : Arith num}.

(** The loop [for (let v of text)], [cWidth] being its accumulator. *)
Fixpoint text_loop (text : list Z) (fontSize cWidth : num) : num :=
  match text with
  | [] => cWidth
  | v :: rest =>
      let charCode := JS.charCodeAt0 v in
      let cWidth :=
        if 256 <? charCode then num_add cWidth fontSize
        else if 97 <? charCode then
          num_add cWidth (num_div fontSize (num_lit (2 # 1)))
        else num_add cWidth (num_mul fontSize (num_lit (8 # 10))) in
      text_loop rest fontSize cWidth
  end.

Definition calculateTextSize (text : list Z) (fontSize : num)
    : WatermarkTextOpts.T num :=
  let cWidth := text_loop text fontSize (num_lit (0 # 1)) in
  {| WatermarkTextOpts.width :=
       num_round (num_add cWidth (num_lit (inject_Z margin)));
     WatermarkTextOpts.height :=
       num_round (num_mul fontSize (num_lit (12 # 10))) |}.

End TextSize.

(** [Math.round((a - b) / 2)] on integers *)
Definition centre (a b : Z) : Z := JS.Math_round (Qmake (a - b) 2).

(** A dimension is used when it is defined and not zero. *)
Definition calculateImgPos (opt : WatermarkOpts.T)
    (metadata markMetadata : Metadata.T) : WatermarkImgOpts.T :=
  match Metadata.width markMetadata, Metadata.width metadata,
        Metadata.height markMetadata, Metadata.height metadata with
  | Some mw, Some w, Some mh, Some h =>
      if negb (mw =? 0) && negb (w =? 0) && negb (mh =? 0) && negb (h =? 0)
      then
        let imgY : option JS.number :=
          if JS.includes ["east"; "west"; "center"] (WatermarkOpts.g opt) then
            Some (JS.add (JS.Num (centre h mh)) (WatermarkOpts.voffset opt))
          else
            match WatermarkOpts.y opt with
            | Some oy =>
                if JS.truthy_number oy then
                  if JS.startsWith (WatermarkOpts.g opt) "south"
                  then Some (JS.sub (JS.Num (h - mh)) oy)
                  else Some oy
                else None
            | None => None
            end in
        if JS.includes ["north"; "south"] (WatermarkOpts.g opt) then
          let imgX := Some (JS.Num (centre w mw)) in
          let imgY :=
            if negb (JS.truthy_opt_number imgY) then
              if String.eqb (WatermarkOpts.g opt) "north"
              then Some (JS.Num 0)
              else Some (JS.Num (h - mh))
            else imgY in
          {| WatermarkImgOpts.x := imgX; WatermarkImgOpts.y := imgY |}
        else
          let imgX : option JS.number :=
            match WatermarkOpts.x opt with
            | Some ox =>
                if JS.truthy_number ox then
                  if JS.endsWith (WatermarkOpts.g opt) "east"
                  then Some (JS.sub (JS.Num (w - mw)) ox)
                  else if String.eqb (WatermarkOpts.g opt) "center"
                  then Some (JS.Num (centre w mw))
                  else Some ox
                else None
            | None => None
            end in
          {| WatermarkImgOpts.x := imgX; WatermarkImgOpts.y := imgY |}
      else {| WatermarkImgOpts.x := None; WatermarkImgOpts.y := None |}
  | _, _, _, _ => {| WatermarkImgOpts.x := None; WatermarkImgOpts.y := None |}
  end.

Definition calculateMixedGravity (opt : WatermarkOpts.T)
    : WatermarkMixedGravityOpts.T :=
  let '(imgGravity, txtGravity) :=
    if JS.strict_eq (WatermarkOpts.order opt) (JS.Num 1) then
      if JS.strict_eq (WatermarkOpts.align opt) (JS.Num 1) then ("east", "west")
      else if JS.strict_eq (WatermarkOpts.align opt) (JS.Num 2)
      then ("southeast", "southwest")
      else ("northeast", "northwest")
    else
      if JS.strict_eq (WatermarkOpts.align opt) (JS.Num 1) then ("west", "east")
      else if JS.strict_eq (WatermarkOpts.align opt) (JS.Num 2)
      then ("southwest", "southeast")
      else ("northwest", "northeast") in
  {| WatermarkMixedGravityOpts.imgGravity := imgGravity;
     WatermarkMixedGravityOpts.textGravity := txtGravity |}.

End WatermarkAction.

(** ** Notions used to state the properties *)

Module Spec.

(** The gravity tokens as documented: ten long forms returned as they
    are, four short aliases, everything else rejected. *)
Definition long_forms : list string :=
  ["north"; "west"; "east"; "south"; "center"; "centre";
   "southeast"; "southwest"; "northwest"; "northeast"].

Definition aliases : list (string * string) :=
  [("se", "southeast"); ("sw", "southwest");
   ("nw", "northwest"); ("ne", "northeast")].

Fixpoint assoc (l : list (string * string)) (k : string) : option string :=
  match l with
  | [] => None
  | (a, b) :: r => if String.eqb a k then Some b else assoc r k
  end.

Definition gravityConvert (param : string) : result string :=
  if JS.includes long_forms param then Ok param
  else match assoc aliases param with
       | Some long => Ok long
       | None => Throw (InvalidArgument WatermarkAction.gravity_message)
       end.

(** The anchor a gravity names: a vertical band and, off the vertical
    axis, a side. *)
Inductive band : Type := Top | Middle | Bottom.
Inductive side : Type := Left | Right.

Definition anchor (g : string) : option (band * side) :=
  if String.eqb g "northwest" then Some (Top, Left)
  else if String.eqb g "northeast" then Some (Top, Right)
  else if String.eqb g "west" then Some (Middle, Left)
  else if String.eqb g "east" then Some (Middle, Right)
  else if String.eqb g "southwest" then Some (Bottom, Left)
  else if String.eqb g "southeast" then Some (Bottom, Right)
  else None.

(** Two gravities are horizontally opposed anchors of one band. *)
Definition opposed (g1 g2 : string) : Prop :=
  exists b s1 s2,
    anchor g1 = Some (b, s1) /\ anchor g2 = Some (b, s2) /\ s1 <> s2.

(** [order] and [align] as [calculateMixedGravity] reads them. *)
Definition effective_order (n : JS.number) : JS.number :=
  if JS.strict_eq n (JS.Num 1) then JS.Num 1 else JS.Num 0.

Definition effective_align (n : JS.number) : JS.number :=
  if JS.strict_eq n (JS.Num 1) then JS.Num 1
  else if JS.strict_eq n (JS.Num 2) then JS.Num 2
  else JS.Num 0.

(** The pair (image gravity, text gravity) computed for an order and
    an align. *)
Definition mixed (order align : Z) (opt : WatermarkOpts.T) : string * string :=
  let r :=
    WatermarkAction.calculateMixedGravity
      (WatermarkOpts.set_order (JS.Num order)
         (WatermarkOpts.set_align (JS.Num align) opt)) in
  (WatermarkMixedGravityOpts.imgGravity r,
   WatermarkMixedGravityOpts.textGravity r).

(** The value a record holds for a numeric option. *)
Definition stored (k : string) (o : WatermarkOpts.T) : option JS.number :=
  if String.eqb k "t" then Some (WatermarkOpts.t o)
  else if String.eqb k "rotate" then Some (WatermarkOpts.rotate o)
  else if String.eqb k "size" then Some (WatermarkOpts.size o)
  else if String.eqb k "x" then WatermarkOpts.x o
  else if String.eqb k "y" then WatermarkOpts.y o
  else if String.eqb k "voffset" then Some (WatermarkOpts.voffset o)
  else if String.eqb k "order" then Some (WatermarkOpts.order o)
  else if String.eqb k "interval" then Some (WatermarkOpts.interval o)
  else if String.eqb k "align" then Some (WatermarkOpts.align o)
  else None.

(** The value kept for an integer given for an option: a rotation of
    360 degrees is kept as 0. *)
Definition normalised (k : string) (n : Z) : Z :=
  if String.eqb k "rotate" && (n =? 360) then 0 else n.

(** The bounds the data model documents for the numeric options. *)
Definition documented_bound (k : string) : option (Z * Z) :=
  if String.eqb k "t" then Some (0, 100)
  else if String.eqb k "rotate" then Some (0, 360)
  else if String.eqb k "size" then Some (0, 1000)
  else if String.eqb k "x" then Some (0, 4096)
  else if String.eqb k "y" then Some (0, 4096)
  else if String.eqb k "voffset" then Some (-1000, 1000)
  else if String.eqb k "order" then Some (0, 1)
  else if String.eqb k "interval" then Some (0, 1000)
  else if String.eqb k "align" then Some (0, 2)
  else None.

(** The bounds [validate] checks. *)
Definition checked_bound (k : string) : option (Z * Z) :=
  if String.eqb k "rotate" then Some (0, 360)
  else if String.eqb k "size" then Some (0, 1000)
  else if String.eqb k "x" then Some (0, 4096)
  else if String.eqb k "y" then Some (0, 4096)
  else if String.eqb k "voffset" then Some (-1000, 1000)
  else if String.eqb k "interval" then Some (0, 1000)
  else None.

(** A token list holds an out-of-range value for an option when one of
    its tokens has the key of the option and an integer outside the
    bounds after the underscore. *)
Definition out_of_range (bound : string -> option (Z * Z))
    (params : list string) : Prop :=
  exists tok n lo hi,
    In tok params
    /\ bound (WatermarkAction.key tok) = Some (lo, hi)
    /\ JS.parseInt (WatermarkAction.value tok) = JS.Num n
    /\ (n < lo \/ hi < n).

Definition raises_InvalidArgument {A : Type} (r : result A) : Prop :=
  exists message, r = Throw (InvalidArgument message).

Section TextSize.

Context {num : Type} {A : Arith num}.

(** The width one character adds. *)
Definition char_width (fontSize : num) (v : Z) : num :=
  let charCode := JS.charCodeAt0 v in
  if 256 <? charCode then fontSize
  else if 97 <? charCode then num_div fontSize (num_lit (2 # 1))
  else num_mul fontSize (num_lit (8 # 10)).

(** The sum of a list of numbers, from zero, left to right. *)
Definition sum (l : list num) : num :=
  fold_left num_add l (num_lit (0 # 1)).

End TextSize.

(** The order of the numbers, on the numbers that are not negative: what
    the monotonicity of the text metrics rests on.  The laws are those of
    a correctly rounded arithmetic: a comparison that holds has operands
    that compare with themselves (so none is [NaN]), literals and rounding
    keep the order, and adding, multiplying by or dividing by a positive
    literal keeps the order of numbers that are not negative.  Exact
    arithmetic has these properties. *)
Class Ordered {num : Type} (A : Arith num) (le : num -> num -> Prop) : Prop := {
  le_refl_l : forall a b, le a b -> le a a;
  le_refl_r : forall a b, le a b -> le b b;
  le_trans : forall a b c, le a b -> le b c -> le a c;
  lit_mono : forall p q, (p <= q)%Q -> le (num_lit p) (num_lit q);
  add_le_mono : forall a b c d,
    le (num_lit (0 # 1)) a -> le (num_lit (0 # 1)) c ->
    le a b -> le c d -> le (num_add a c) (num_add b d);
  add_nonneg : forall a w,
    le (num_lit (0 # 1)) a -> le (num_lit (0 # 1)) w -> le a (num_add a w);
  mul_lit_mono : forall q a b,
    (0 < q)%Q -> le (num_lit (0 # 1)) a -> le a b ->
    le (num_mul a (num_lit q)) (num_mul b (num_lit q));
  div_lit_mono : forall q a b,
    (0 < q)%Q -> le (num_lit (0 # 1)) a -> le a b ->
    le (num_div a (num_lit q)) (num_div b (num_lit q));
  mul_lit_nonneg : forall q a,
    (0 < q)%Q -> le (num_lit (0 # 1)) a ->
    le (num_lit (0 # 1)) (num_mul a (num_lit q));
  div_lit_nonneg : forall q a,
    (0 < q)%Q -> le (num_lit (0 # 1)) a ->
    le (num_lit (0 # 1)) (num_div a (num_lit q));
  round_mono : forall a b,
    le (num_lit (0 # 1)) a -> le a b -> le (num_round a) (num_round b)
}.

End Spec.

(** ** Notions used to state further properties *)

Module Props.

(** A number is within bounds when it is [NaN] or an integer between
    them: the range checks of [validate] are written as two comparisons,
    which [NaN] passes. *)
Definition within (lo hi : Z) (n : JS.number) : Prop :=
  match n with
  | JS.NaN => True
  | JS.Num z => lo <= z <= hi
  end.

Definition within_opt (lo hi : Z) (n : option JS.number) : Prop :=
  match n with
  | None => True
  | Some n => within lo hi n
  end.

(** What holds of every record [validate] builds. *)
Record checked (o : WatermarkOpts.T) : Prop := {
  checked_rotate :
    exists r, WatermarkOpts.rotate o = JS.Num r /\ 0 <= r < 360;
  checked_x : within_opt 0 4096 (WatermarkOpts.x o);
  checked_y : within_opt 0 4096 (WatermarkOpts.y o);
  checked_voffset : within (-1000) 1000 (WatermarkOpts.voffset o);
  checked_interval : within 0 1000 (WatermarkOpts.interval o);
  checked_size : within 0 1000 (WatermarkOpts.size o);
  checked_g : In (WatermarkOpts.g o) ("se" :: Spec.long_forms)
}.

(** The keys [validate] knows. *)
Definition known_keys : list string :=
  ["text"; "image"; "t"; "x"; "y"; "voffset"; "order"; "interval"; "align";
   "g"; "size"; "fill"; "auto"; "rotate"; "color"].

(** The tokens the loop of [validate] passes over: the action name and
    the empty token. *)
Definition skipped (param : string) : bool :=
  String.eqb WatermarkAction.name param || negb (JS.truthy_string param).

(** The values a [g] token may have. *)
Definition gravity_tokens : list string :=
  ["north"; "west"; "east"; "south"; "center"; "centre";
   "southeast"; "southwest"; "northwest"; "se"; "sw"; "nw"; "ne"].

(** What a token with a given key may do to the record: nothing, or set
    the field of the key. *)
Inductive update : string -> (WatermarkOpts.T -> WatermarkOpts.T) -> Prop :=
| update_none (k : string) : update k (fun o => o)
| update_text (s : list Z) : update "text" (WatermarkOpts.set_text s)
| update_image (s : list Z) : update "image" (WatermarkOpts.set_image s)
| update_t (n : JS.number) : update "t" (WatermarkOpts.set_t n)
| update_x (n : JS.number) : update "x" (WatermarkOpts.set_x (Some n))
| update_y (n : JS.number) : update "y" (WatermarkOpts.set_y (Some n))
| update_voffset (n : JS.number) : update "voffset" (WatermarkOpts.set_voffset n)
| update_order (n : JS.number) : update "order" (WatermarkOpts.set_order n)
| update_interval (n : JS.number) :
    update "interval" (WatermarkOpts.set_interval n)
| update_align (n : JS.number) : update "align" (WatermarkOpts.set_align n)
| update_g (s : string) : update "g" (WatermarkOpts.set_g s)
| update_size (n : JS.number) : update "size" (WatermarkOpts.set_size n)
| update_fill (b : bool) : update "fill" (WatermarkOpts.set_fill b)
| update_auto (b : bool) : update "auto" (WatermarkOpts.set_auto b)
| update_rotate (n : JS.number) : update "rotate" (WatermarkOpts.set_rotate n)
| update_color (c : option string) : update "color" (WatermarkOpts.set_color c).

(** What an accepted token whose key is neither [text] nor [image]
    does: it sets the field of its key. *)
Inductive assign : string -> (WatermarkOpts.T -> WatermarkOpts.T) -> Prop :=
| assign_t (n : JS.number) : assign "t" (WatermarkOpts.set_t n)
| assign_x (n : JS.number) : assign "x" (WatermarkOpts.set_x (Some n))
| assign_y (n : JS.number) : assign "y" (WatermarkOpts.set_y (Some n))
| assign_voffset (n : JS.number) : assign "voffset" (WatermarkOpts.set_voffset n)
| assign_order (n : JS.number) : assign "order" (WatermarkOpts.set_order n)
| assign_interval (n : JS.number) :
    assign "interval" (WatermarkOpts.set_interval n)
| assign_align (n : JS.number) : assign "align" (WatermarkOpts.set_align n)
| assign_g (s : string) : assign "g" (WatermarkOpts.set_g s)
| assign_size (n : JS.number) : assign "size" (WatermarkOpts.set_size n)
| assign_fill (b : bool) : assign "fill" (WatermarkOpts.set_fill b)
| assign_auto (b : bool) : assign "auto" (WatermarkOpts.set_auto b)
| assign_rotate (n : JS.number) : assign "rotate" (WatermarkOpts.set_rotate n)
| assign_color (c : option string) : assign "color" (WatermarkOpts.set_color c).

(** A dimension is known when it is defined and not zero, and the
    placement is computed when the four dimensions are known. *)
Definition dimension (d : option Z) : bool :=
  match d with
  | Some z => negb (z =? 0)
  | None => false
  end.

Definition known (metadata markMetadata : Metadata.T) : bool :=
  dimension (Metadata.width markMetadata)
  && dimension (Metadata.width metadata)
  && dimension (Metadata.height markMetadata)
  && dimension (Metadata.height metadata).

(** The formats with animation. *)
Definition animated_format (f : string) : bool :=
  String.eqb f "webp" || String.eqb f "gif".

End Props.

(** ** The watermark action on the image engine

    The routines of the watermark action that drive the engine.  The
    engine is a parameter: its handles, its buffers and each of its
    operations.  An operation that checks its arguments or that runs the
    pipeline may fail, so it returns a [result]; a handle stands for the
    state of the engine object the source mutates.  The text metrics
    these routines receive are rounded numbers: [NaN] or an integer. *)

Module OverlayOptions.
(** [sharp.OverlayOptions]; a field the source leaves out is [None]. *)
Record T (Buffer : Type) : Type := {
  input : Buffer;
  tile : option bool;
  gravity : option string;
  top : option JS.number;
  left : option JS.number
}.
Arguments input {Buffer} _.
Arguments tile {Buffer} _.
Arguments gravity {Buffer} _.
Arguments top {Buffer} _.
Arguments left {Buffer} _.
End OverlayOptions.

Module WatermarkEngine.

(** [a && b && a > b] on two optional dimensions. *)
Definition exceeds (a b : option Z) : bool :=
  match a, b with
  | Some x, Some y => negb (x =? 0) && negb (y =? 0) && (y <? x)
  | _, _ => false
  end.

(** [b && b < t] for an optional dimension and a text metric. *)
Definition below (b : option Z) (t : JS.number) : bool :=
  match b with
  | Some y => negb (y =? 0) && JS.lt (JS.Num y) t
  | None => false
  end.

(** [d - n] for an optional dimension [d] that is defined. *)
Definition minus (d : option Z) (n : Z) : option JS.number :=
  match d with
  | Some y => Some (JS.Num (y - n))
  | None => None
  end.

Definition number_of (d : option Z) : option JS.number :=
  match d with
  | Some y => Some (JS.Num y)
  | None => None
  end.

(** [d ? d : 0] on an optional dimension. *)
Definition or_zero (d : option Z) : Z :=
  match d with
  | Some y => y
  | None => 0
  end.

(** [Math.max] and [Math.min] of two numbers. *)
Definition Math_max (a b : JS.number) : JS.number :=
  match a, b with
  | JS.Num x, JS.Num y => JS.Num (Z.max x y)
  | _, _ => JS.NaN
  end.

Definition Math_min (a b : JS.number) : JS.number :=
  match a, b with
  | JS.Num x, JS.Num y => JS.Num (Z.min x y)
  | _, _ => JS.NaN
  end.

(** [b && e > b] for an expected size and an optional dimension. *)
Definition over (e : JS.number) (b : option Z) : bool :=
  match b with
  | Some y => negb (y =? 0) && JS.gt e (JS.Num y)
  | None => false
  end.

(** [Math.min(e, b) - 1] for an optional dimension [b]. *)
Definition shrink (e : JS.number) (b : option Z) : JS.number :=
  match b with
  | Some y => JS.sub (Math_min e (JS.Num y)) (JS.Num 1)
  | None => JS.NaN
  end.

Section Engine.

Variables Sharp Buffer BufferStore : Type.
(** [(await bs.get(uri)).buffer] *)
Variable get : BufferStore -> list Z -> result Buffer.
(** [sharp(buffer)] *)
Variable sharp : Buffer -> Sharp.
(** [sharp({ create: { width, height, channels: 4, background } })] with
    the transparent background *)
Variable create : JS.number -> JS.number -> result Sharp.
(** [image.png()], [image.removeAlpha()] *)
Variable png : Sharp -> Sharp.
Variable removeAlpha : Sharp -> Sharp.
(** [image.rotate(angle, { background })] *)
Variable rotate : JS.number -> string -> Sharp -> result Sharp.
(** [image.resize(width, height)] *)
Variable resize : option JS.number -> option JS.number -> Sharp -> result Sharp.
(** [image.composite(overlays)] *)
Variable composite : list (OverlayOptions.T Buffer) -> Sharp -> result Sharp.
(** [image.ensureAlpha(t / 100)], as a function of [t] *)
Variable ensureAlpha : JS.number -> Sharp -> result Sharp.
(** [await image.toBuffer()] *)
Variable toBuffer : Sharp -> result Buffer.
(** [await image.metadata()]: the dimensions, and whether [hasAlpha] is
    truthy *)
Variable metadata : Sharp -> result (Metadata.T * bool).

Definition ctx : Type := IImageContext.T Sharp BufferStore.

(** The context is mutated by the last statement of a routine only: a
    routine that throws leaves it as it was. *)
Definition commit (c : ctx) (outcome : result Sharp) : ctx * result unit :=
  match outcome with
  | Ok image => (IImageContext.set_image image c, Ok tt)
  | Throw e => (c, Throw e)
  end.

Definition textSvgImg (svgBytes : Buffer) (textOpt : WatermarkTextOpts.T JS.number)
    : result Sharp :=
  do canvas <-
    create
      (JS.add (WatermarkTextOpts.width textOpt) (JS.Num WatermarkAction.margin))
      (JS.add (WatermarkTextOpts.height textOpt) (JS.Num WatermarkAction.margin));
  composite
    [ {| OverlayOptions.input := svgBytes; OverlayOptions.tile := None;
         OverlayOptions.gravity := None; OverlayOptions.top := None;
         OverlayOptions.left := None |} ]
    canvas.

(** The block of [imgWaterMark] that rotates the mark: the mark is
    rendered, rotated on a white background, rendered again and opened
    anew. *)
Definition rotateMark (watermarkImg : Sharp) (opt : WatermarkOpts.T)
    : result Sharp :=
  if JS.lt (JS.Num 0) (WatermarkOpts.rotate opt) then
    do unrotated <- toBuffer watermarkImg;
    do rotated <- rotate (WatermarkOpts.rotate opt) "#ffffff" (sharp unrotated);
    do bt <- toBuffer rotated;
    Ok (sharp bt)
  else Ok watermarkImg.

(** The block of [imgWaterMark] that scales the mark down to the
    background. *)
Definition autoScale (watermarkImg : Sharp) (opt : WatermarkOpts.T)
    (metadata markMetadata : Metadata.T) : result Sharp :=
  if WatermarkOpts.auto opt then
    let wide :=
      exceeds (Metadata.width markMetadata) (Metadata.width metadata) in
    let high :=
      exceeds (Metadata.height markMetadata) (Metadata.height metadata) in
    let width :=
      if wide then minus (Metadata.width metadata) 1
      else number_of (Metadata.width markMetadata) in
    let height :=
      if high then minus (Metadata.height metadata) 1
      else number_of (Metadata.height markMetadata) in
    if wide || high then resize width height watermarkImg
    else Ok watermarkImg
  else Ok watermarkImg.

Definition imgWaterMark (c : ctx) (opt : WatermarkOpts.T) : ctx * result unit :=
  let bs := IImageContext.bufferStore c in
  commit c
    (do watermarkImgBuffer <- get bs (WatermarkOpts.image opt);
     do watermarkImg <- rotateMark (png (sharp watermarkImgBuffer)) opt;
     do m <- metadata (IImageContext.image c);
     do mm <- metadata watermarkImg;
     let metadata := fst m in
     let markMetadata := fst mm in
     do watermarkImg <- autoScale watermarkImg opt metadata markMetadata;
     let pos := WatermarkAction.calculateImgPos opt metadata markMetadata in
     do bt <- toBuffer watermarkImg;
     let overlay :=
       {| OverlayOptions.input := bt;
          OverlayOptions.tile := Some (WatermarkOpts.fill opt);
          OverlayOptions.gravity := Some (WatermarkOpts.g opt);
          OverlayOptions.top := WatermarkImgOpts.y pos;
          OverlayOptions.left := WatermarkImgOpts.x pos |} in
     if JS.lt (WatermarkOpts.t opt) (JS.Num 100) && snd mm then
       do background <- toBuffer (IImageContext.image c);
       let overForPng := png (sharp background) in
       do composed <- composite [overlay] overForPng;
       do faded <- ensureAlpha (WatermarkOpts.t opt) (removeAlpha composed);
       do overBuffer <- toBuffer faded;
       composite
         [ {| OverlayOptions.input := overBuffer; OverlayOptions.tile := None;
              OverlayOptions.gravity := None; OverlayOptions.top := None;
              OverlayOptions.left := None |} ]
         (IImageContext.image c)
     else composite [overlay] (IImageContext.image c)).

Definition autoResizeImg (source : Sharp) (c : ctx) (opt : WatermarkOpts.T)
    (textOpt : WatermarkTextOpts.T JS.number) : result Sharp :=
  if WatermarkOpts.auto opt then
    do om <- metadata source;
    do m <- metadata (IImageContext.image c);
    let overlapImgMeta := fst om in
    let metadata := fst m in
    let wide :=
      exceeds (Metadata.width overlapImgMeta) (Metadata.width metadata) in
    let high :=
      exceeds (Metadata.height overlapImgMeta) (Metadata.height metadata) in
    let w :=
      if wide then minus (Metadata.width metadata) 10
      else Some (WatermarkTextOpts.width textOpt) in
    let h :=
      if high then minus (Metadata.height metadata) 10
      else Some (WatermarkTextOpts.height textOpt) in
    if wide || high then
      do overlapImgBuffer <- toBuffer source;
      resize w h (sharp overlapImgBuffer)
    else Ok source
  else Ok source.

Definition autoResizeSvg (source : Buffer) (c : ctx) (opt : WatermarkOpts.T)
    (textOpt : WatermarkTextOpts.T JS.number) : result Buffer :=
  if WatermarkOpts.auto opt then
    do m <- metadata (IImageContext.image c);
    let metadata := fst m in
    let narrow :=
      below (Metadata.width metadata) (WatermarkTextOpts.width textOpt) in
    let low :=
      below (Metadata.height metadata) (WatermarkTextOpts.height textOpt) in
    let w :=
      if narrow then number_of (Metadata.width metadata)
      else Some (WatermarkTextOpts.width textOpt) in
    let h :=
      if low then number_of (Metadata.height metadata)
      else Some (WatermarkTextOpts.height textOpt) in
    if narrow || low then
      do overlapImg <- textSvgImg source textOpt;
      do overlapImgBuffer <- toBuffer (png overlapImg);
      do resized <- resize w h (png (sharp overlapImgBuffer));
      toBuffer resized
    else Ok source
  else Ok source.

(** [calculateTextSize(opt.text, opt.size)] read at numbers: the
    metrics it returns are rounded. *)
Variable calculateTextSize :
  list Z -> JS.number -> WatermarkTextOpts.T JS.number.
(** The bytes of the markup template of [textSvgStr], as a function of
    the values it interpolates: the text metrics (for the view box and
    the two offsets), the font size, the colour, the opacity and the
    text.  The opacity is [t] for [t / 100], or nothing for 1. *)
Variable svg :
  WatermarkTextOpts.T JS.number -> JS.number -> option string ->
  option JS.number -> list Z -> Buffer.

(** [Buffer.from(textSvgStr(opt, textOpt, applyOpacity))] *)
Definition textSvgStr (opt : WatermarkOpts.T)
    (textOpt : WatermarkTextOpts.T JS.number) (applyOpacity : bool) : Buffer :=
  let opacity := if applyOpacity then Some (WatermarkOpts.t opt) else None in
  svg textOpt (WatermarkOpts.size opt) (WatermarkOpts.color opt) opacity
    (WatermarkOpts.text opt).

Definition textWaterMark (c : ctx) (opt : WatermarkOpts.T) : ctx * result unit :=
  let textOpt :=
    calculateTextSize (WatermarkOpts.text opt) (WatermarkOpts.size opt) in
  let svgBytes := textSvgStr opt textOpt true in
  commit c
    (if JS.lt (JS.Num 0) (WatermarkOpts.rotate opt) then
       do overlapImg <- textSvgImg svgBytes textOpt;
       do overlapImgBuffer <- toBuffer (png overlapImg);
       let optOverlapImg := png (sharp overlapImgBuffer) in
       do optOverlapImg <-
         (if JS.lt (JS.Num 0) (WatermarkOpts.rotate opt)
          then rotate (WatermarkOpts.rotate opt) "#00000000" optOverlapImg
          else Ok optOverlapImg);
       do optOverlapImg <- autoResizeImg optOverlapImg c opt textOpt;
       do rotateOverlabImgBuffer <- toBuffer optOverlapImg;
       composite
         [ {| OverlayOptions.input := rotateOverlabImgBuffer;
              OverlayOptions.tile := Some (WatermarkOpts.fill opt);
              OverlayOptions.gravity := Some (WatermarkOpts.g opt);
              OverlayOptions.top := None; OverlayOptions.left := None |} ]
         (IImageContext.image c)
     else
       do bt <- autoResizeSvg svgBytes c opt textOpt;
       composite
         [ {| OverlayOptions.input := bt;
              OverlayOptions.tile := Some (WatermarkOpts.fill opt);
              OverlayOptions.gravity := Some (WatermarkOpts.g opt);
              OverlayOptions.top := None; OverlayOptions.left := None |} ]
         (IImageContext.image c)).

(** The block of [mixedWaterMark] that scales the canvas of the text and
    the image down to the background. *)
Definition fitCanvas (overlapImg : Sharp)
    (expectedWidth expectedHeight : JS.number) (backMetadata : Metadata.T)
    : result Sharp :=
  let wide := over expectedWidth (Metadata.width backMetadata) in
  let high := over expectedHeight (Metadata.height backMetadata) in
  let alWidth :=
    if wide then shrink expectedWidth (Metadata.width backMetadata)
    else expectedWidth in
  let alHeight :=
    if high then shrink expectedHeight (Metadata.height backMetadata)
    else expectedHeight in
  if wide || high then resize (Some alWidth) (Some alHeight) overlapImg
  else Ok overlapImg.

Definition mixedWaterMark (c : ctx) (opt : WatermarkOpts.T) : ctx * result unit :=
  let bs := IImageContext.bufferStore c in
  let textOpt :=
    calculateTextSize (WatermarkOpts.text opt) (WatermarkOpts.size opt) in
  let svgBytes := textSvgStr opt textOpt false in
  commit c
    (do watermarkImgBuffer <- get bs (WatermarkOpts.image opt);
     let watermarkImg := png (sharp watermarkImgBuffer) in
     do im <- metadata watermarkImg;
     let imgMetadata := fst im in
     let imgW := or_zero (Metadata.width imgMetadata) in
     let imgH := or_zero (Metadata.height imgMetadata) in
     let gravityOpt := WatermarkAction.calculateMixedGravity opt in
     do wbt <- toBuffer watermarkImg;
     do bm <- metadata (IImageContext.image c);
     let backMetadata := fst bm in
     let expectedWidth :=
       JS.add (JS.add (WatermarkTextOpts.width textOpt) (JS.Num imgW))
         (WatermarkOpts.interval opt) in
     let expectedHeight :=
       Math_max (WatermarkTextOpts.height textOpt) (JS.Num imgH) in
     do canvas <- create expectedWidth expectedHeight;
     do overlapImg <-
       composite
         [ {| OverlayOptions.input := svgBytes; OverlayOptions.tile := None;
              OverlayOptions.gravity :=
                Some (WatermarkMixedGravityOpts.textGravity gravityOpt);
              OverlayOptions.top := None; OverlayOptions.left := None |};
           {| OverlayOptions.input := wbt; OverlayOptions.tile := None;
              OverlayOptions.gravity :=
                Some (WatermarkMixedGravityOpts.imgGravity gravityOpt);
              OverlayOptions.top := None; OverlayOptions.left := None |} ]
         canvas;
     do overlapImg <-
       fitCanvas overlapImg expectedWidth expectedHeight backMetadata;
     do bt <- toBuffer (png overlapImg);
     let overlay :=
       {| OverlayOptions.input := bt;
          OverlayOptions.tile := Some (WatermarkOpts.fill opt);
          OverlayOptions.gravity := Some (WatermarkOpts.g opt);
          OverlayOptions.top := None; OverlayOptions.left := None |} in
     if JS.lt (WatermarkOpts.t opt) (JS.Num 100) && snd im then
       do background <- toBuffer (IImageContext.image c);
       let overForPng := png (sharp background) in
       do composed <- composite [overlay] overForPng;
       do faded <- ensureAlpha (WatermarkOpts.t opt) (removeAlpha composed);
       do overBuffer <- toBuffer faded;
       composite
         [ {| OverlayOptions.input := overBuffer; OverlayOptions.tile := None;
              OverlayOptions.gravity := None; OverlayOptions.top := None;
              OverlayOptions.left := None |} ]
         (IImageContext.image c)
     else composite [overlay] (IImageContext.image c)).

Definition process (c : ctx) (params : list string) : ctx * result unit :=
  match WatermarkAction.validate params with
  | Throw e => (c, Throw e)
  | Ok opt =>
      if WatermarkAction.truthy_text (WatermarkOpts.text opt)
         && WatermarkAction.truthy_text (WatermarkOpts.image opt)
      then mixedWaterMark c opt
      else if WatermarkAction.truthy_text (WatermarkOpts.text opt)
      then textWaterMark c opt
      else imgWaterMark c opt
  end.

End Engine.

End WatermarkEngine.

(** An engine that keeps the dimensions of an image and nothing else: a
    handle and a buffer are a width and a height, rendering and opening
    keep them, resizing to two integers sets them, and every stored
    object is given the same dimensions. *)
Module Dimensions.

Definition image : Type := (Z * Z)%type.

Definition get (stored : image) (bs : unit) (uri : list Z) : result image :=
  Ok stored.

Definition sharp (b : image) : image := b.

Definition create (w h : JS.number) : result image :=
  match w, h with
  | JS.Num w, JS.Num h => Ok (w, h)
  | _, _ => Throw (EngineError "create")
  end.

Definition keep (i : image) : image := i.

Definition rotate (angle : JS.number) (background : string) (i : image)
    : result image := Ok i.

Definition resize (w h : option JS.number) (i : image) : result image :=
  match w, h with
  | Some (JS.Num w), Some (JS.Num h) => Ok (w, h)
  | _, _ => Throw (EngineError "resize")
  end.

Definition composite (overlays : list (OverlayOptions.T image)) (i : image)
    : result image := Ok i.

Definition ensureAlpha (t : JS.number) (i : image) : result image := Ok i.

Definition toBuffer (i : image) : result image := Ok i.

Definition metadata (i : image) : result (Metadata.T * bool) :=
  Ok ({| Metadata.width := Some (fst i); Metadata.height := Some (snd i) |},
      false).

(** Every character is as wide as the font size, and the markup has the
    dimensions of the text metrics. *)
Definition calculateTextSize (text : list Z) (size : JS.number)
    : WatermarkTextOpts.T JS.number :=
  match size with
  | JS.Num s =>
      {| WatermarkTextOpts.width := JS.Num (s * Z.of_nat (length text));
         WatermarkTextOpts.height := JS.Num s |}
  | JS.NaN =>
      {| WatermarkTextOpts.width := JS.NaN;
         WatermarkTextOpts.height := JS.NaN |}
  end.

Definition svg (textOpt : WatermarkTextOpts.T JS.number) (size : JS.number)
    (color : option string) (opacity : option JS.number) (text : list Z)
    : image :=
  match WatermarkTextOpts.width textOpt, WatermarkTextOpts.height textOpt with
  | JS.Num w, JS.Num h => (w, h)
  | _, _ => (0, 0)
  end.

End Dimensions.

(** * Properties *)

(** ** The runtime model on examples *)

Example split_examples :
  JS.split "_" "text_5L2g5aW9" = ["text"; "5L2g5aW9"]
  /\ JS.split "_" "a_b_c" = ["a"; "b"; "c"]
  /\ JS.split "_" "x_" = ["x"; ""]
  /\ JS.split "_" "" = [""].
Proof. repeat split; reflexivity. Qed.

Example parseInt_examples :
  JS.parseInt (Some "5000") = JS.Num 5000
  /\ JS.parseInt (Some " -12ab") = JS.Num (-12)
  /\ JS.parseInt (Some "abc") = JS.NaN
  /\ JS.parseInt (Some "") = JS.NaN
  /\ JS.parseInt None = JS.NaN.
Proof. repeat split; reflexivity. Qed.

Example decode_example : WatermarkAction.decode "5L2g5aW9" = [20320; 22909].
Proof. reflexivity. Qed.

Example utf8_ill_formed :
  JS.toString_utf8 [240; 159; 152; 128; 128; 226; 130] = [128512; 65533; 65533].
Proof. reflexivity. Qed.

Example Math_round_examples :
  JS.Math_round (5 # 2) = 3 /\ JS.Math_round (-3 # 2) = -1
  /\ Float64.round (5 / 2)%float = 3%float
  /\ Float64.round (- (5 / 2))%float = (-2)%float
  /\ Float64.round (29 / 4)%float = 7%float.
Proof. repeat split; reflexivity. Qed.

(** The double arithmetic is not the exact one: thirteen-pixel text of one
    half-width and five 0.8-width characters is 63 pixels wide in the
    runtime and 64 in exact arithmetic. *)
Example calculateTextSize_float_vs_exact :
  WatermarkTextOpts.width
    (WatermarkAction.calculateTextSize (A := Float64.arith)
       [98; 65; 65; 65; 65; 65] 13%float) = 63%float
  /\ WatermarkTextOpts.width
       (WatermarkAction.calculateTextSize (A := Exact.arith)
          [98; 65; 65; 65; 65; 65] 13%Q) = 64%Q.
Proof. split; reflexivity. Qed.

Example calculateTextSize_float_example :
  WatermarkAction.calculateTextSize (A := Float64.arith) [20320; 22909] 40%float
  = {| WatermarkTextOpts.width := 85%float;
       WatermarkTextOpts.height := 48%float |}.
Proof. reflexivity. Qed.

(** ** gravityConvert *)

Ltac case_string_eqb :=
  repeat match goal with
    | |- context [String.eqb ?a ?b] =>
        destruct (String.eqb_spec a b);
        [ subst; try reflexivity; try congruence | ]
    end.

(** Apart from the token "northeast", [gravityConvert] is the documented
    conversion. *)
Lemma gravityConvert_agrees_elsewhere (param : string) :
  param <> "northeast" ->
  WatermarkAction.gravityConvert param = Spec.gravityConvert param.
Proof.
  intros Hne.
  unfold WatermarkAction.gravityConvert, Spec.gravityConvert, JS.includes.
  cbn [existsb Spec.long_forms Spec.aliases Spec.assoc].
  case_string_eqb; reflexivity.
Qed.

(** C2: the long form "northeast" is not returned unchanged, it is
    rejected with [InvalidArgument]; the documented conversion returns
    it, and so does the alias "ne". *)
Theorem gravityConvert_northeast_rejected :
  WatermarkAction.gravityConvert "northeast"
  = Throw (InvalidArgument WatermarkAction.gravity_message)
  /\ Spec.gravityConvert "northeast" = Ok "northeast"
  /\ WatermarkAction.gravityConvert "ne" = Ok "northeast".
Proof. repeat split; reflexivity. Qed.

(** ** validate, on the smallest text watermark *)

(** C1: for the tokens [watermark], [text_5L2g5aW9] the call succeeds and
    returns the initial record with the decoded text; its gravity is the
    short alias "se", not the long form "southeast". *)
Theorem validate_text_only :
  WatermarkAction.validate ["watermark"; "text_5L2g5aW9"]
  = Ok {| WatermarkOpts.text := [20320; 22909];
          WatermarkOpts.t := JS.Num 100;
          WatermarkOpts.g := "se";
          WatermarkOpts.fill := false;
          WatermarkOpts.rotate := JS.Num 0;
          WatermarkOpts.size := JS.Num 40;
          WatermarkOpts.color := Some "000000";
          WatermarkOpts.image := [];
          WatermarkOpts.auto := true;
          WatermarkOpts.order := JS.Num 0;
          WatermarkOpts.x := None;
          WatermarkOpts.y := None;
          WatermarkOpts.voffset := JS.Num 0;
          WatermarkOpts.interval := JS.Num 0;
          WatermarkOpts.align := JS.Num 0 |}.
Proof. reflexivity. Qed.

(** The same request with an explicit [g_se] token has the long form. *)
Lemma validate_text_explicit_se :
  exists o,
    WatermarkAction.validate ["watermark"; "text_5L2g5aW9"; "g_se"] = Ok o
    /\ WatermarkOpts.g o = "southeast".
Proof. eexists; split; reflexivity. Qed.

(** ** calculateMixedGravity *)

(** C6: the six entries of the table of (image gravity, text gravity). *)
Theorem calculateMixedGravity_table (opt : WatermarkOpts.T) :
  Spec.mixed 0 0 opt = ("northwest", "northeast")
  /\ Spec.mixed 0 1 opt = ("west", "east")
  /\ Spec.mixed 0 2 opt = ("southwest", "southeast")
  /\ Spec.mixed 1 0 opt = ("northeast", "northwest")
  /\ Spec.mixed 1 1 opt = ("east", "west")
  /\ Spec.mixed 1 2 opt = ("southeast", "southwest").
Proof. repeat split; reflexivity. Qed.

(** C10: [calculateMixedGravity] is a total function of the record,
    whatever numbers (or [NaN]) the order and the align are; an order
    other than 1 counts as 0, an align other than 1 and 2 counts as 0,
    the row of order 0 and align 0 is northwest and northeast, and the
    two gravities returned are always horizontally opposed anchors of one
    vertical band. *)
Theorem calculateMixedGravity_total (opt : WatermarkOpts.T) :
  WatermarkAction.calculateMixedGravity opt
  = WatermarkAction.calculateMixedGravity
      (WatermarkOpts.set_order (Spec.effective_order (WatermarkOpts.order opt))
         (WatermarkOpts.set_align
            (Spec.effective_align (WatermarkOpts.align opt)) opt))
  /\ WatermarkAction.calculateMixedGravity
       (WatermarkOpts.set_order (JS.Num 0)
          (WatermarkOpts.set_align (JS.Num 0) opt))
     = {| WatermarkMixedGravityOpts.imgGravity := "northwest";
          WatermarkMixedGravityOpts.textGravity := "northeast" |}
  /\ Spec.opposed
       (WatermarkMixedGravityOpts.imgGravity
          (WatermarkAction.calculateMixedGravity opt))
       (WatermarkMixedGravityOpts.textGravity
          (WatermarkAction.calculateMixedGravity opt)).
Proof.
  unfold WatermarkAction.calculateMixedGravity, Spec.effective_order,
    Spec.effective_align, Spec.opposed.
  cbn [WatermarkOpts.order WatermarkOpts.align WatermarkOpts.set_order
         WatermarkOpts.set_align].
  destruct (JS.strict_eq (WatermarkOpts.order opt) (JS.Num 1)),
    (JS.strict_eq (WatermarkOpts.align opt) (JS.Num 1)),
    (JS.strict_eq (WatermarkOpts.align opt) (JS.Num 2));
    (split; [ reflexivity | ]); (split; [ reflexivity | ]); cbn;
    do 3 eexists; (split; [ reflexivity | split; [ reflexivity | discriminate ] ]).
Qed.

(** ** validate: the loop over the tokens *)

Ltac break_match :=
  repeat match goal with
    | |- context [if ?b then _ else _] => destruct b eqn:?
    | |- context [match ?v with Some _ => _ | None => _ end] => destruct v eqn:?
    | |- context [match ?r with Ok _ => _ | Throw _ => _ end] => destruct r eqn:?
    end.

Lemma gravityConvert_throws (param : string) (e : exn) :
  WatermarkAction.gravityConvert param = Throw e ->
  e = InvalidArgument WatermarkAction.gravity_message.
Proof.
  unfold WatermarkAction.gravityConvert.
  break_match; intros H; inversion H; reflexivity.
Qed.

(** Whatever [validate] throws is an [InvalidArgument]. *)
Lemma set_option_throws (opt : WatermarkOpts.T) (k : string) (v : option string) (e : exn) :
  WatermarkAction.set_option opt k v = Throw e ->
  exists message, e = InvalidArgument message.
Proof.
  unfold WatermarkAction.set_option, bind.
  break_match; intros H; inversion H; subst; eauto.
  match goal with
  | G : WatermarkAction.gravityConvert _ = Throw _ |- _ =>
      apply gravityConvert_throws in G; eauto
  end.
Qed.

Lemma step_throws (opt : WatermarkOpts.T) (param : string) (e : exn) :
  WatermarkAction.step opt param = Throw e ->
  exists message, e = InvalidArgument message.
Proof.
  unfold WatermarkAction.step.
  destruct (_ || _); [ discriminate | apply set_option_throws ].
Qed.

Lemma loop_throws (params : list string) (opt : WatermarkOpts.T) (e : exn) :
  WatermarkAction.loop params opt = Throw e ->
  exists message, e = InvalidArgument message.
Proof.
  revert opt; induction params as [| p rest IH]; intros opt; cbn.
  - discriminate.
  - destruct (WatermarkAction.step opt p) eqn:Hs; cbn.
    + apply IH.
    + intros H; inversion H; subst. eapply step_throws; eassumption.
Qed.

Lemma validate_throws (params : list string) (e : exn) :
  WatermarkAction.validate params = Throw e ->
  exists message, e = InvalidArgument message.
Proof.
  unfold WatermarkAction.validate.
  destruct (WatermarkAction.loop params WatermarkAction.initial) eqn:Hl; cbn.
  - destruct (_ && _); intros H; inversion H; eauto.
  - intros H; inversion H; subst. eapply loop_throws; eassumption.
Qed.

(** A token whose key is neither empty nor the action name is handed to
    [set_option]. *)
Lemma step_set_option (opt : WatermarkOpts.T) (tok : string) :
  WatermarkAction.key tok <> "watermark" ->
  WatermarkAction.key tok <> "" ->
  WatermarkAction.step opt tok
  = WatermarkAction.set_option opt (WatermarkAction.key tok)
      (WatermarkAction.value tok).
Proof.
  intros Hname Hempty. unfold WatermarkAction.step.
  destruct (String.eqb_spec WatermarkAction.name tok) as [<- | _].
  - exfalso; apply Hname; reflexivity.
  - destruct tok; [ exfalso; apply Hempty; reflexivity | reflexivity ].
Qed.

Lemma loop_app (pre post : list string) (opt : WatermarkOpts.T) :
  WatermarkAction.loop (pre ++ post) opt
  = do o <- WatermarkAction.loop pre opt; WatermarkAction.loop post o.
Proof.
  revert opt; induction pre as [| p pre IH]; intros opt; cbn.
  - reflexivity.
  - destruct (WatermarkAction.step opt p); cbn; [ apply IH | reflexivity ].
Qed.

(** A token that the loop body rejects whatever the record makes the
    whole loop throw. *)
Lemma loop_raises (params : list string) (tok : string) :
  In tok params ->
  (forall opt, Spec.raises_InvalidArgument (WatermarkAction.step opt tok)) ->
  forall opt, Spec.raises_InvalidArgument (WatermarkAction.loop params opt).
Proof.
  intros Hin Htok.
  induction params as [| p rest IH]; intros opt; [ destruct Hin | ].
  cbn. destruct (WatermarkAction.step opt p) eqn:Hs; cbn.
  - destruct Hin as [-> | Hin].
    + destruct (Htok opt) as [m Hm]. congruence.
    + apply IH, Hin.
  - destruct (step_throws _ _ _ Hs) as [m ->]. exists m; reflexivity.
Qed.

Lemma validate_raises (params : list string) (tok : string) :
  In tok params ->
  (forall opt, Spec.raises_InvalidArgument (WatermarkAction.step opt tok)) ->
  Spec.raises_InvalidArgument (WatermarkAction.validate params).
Proof.
  intros Hin Htok. unfold WatermarkAction.validate.
  destruct (loop_raises params tok Hin Htok WatermarkAction.initial) as [m ->].
  exists m; reflexivity.
Qed.

Lemma validate_Ok_loop (params : list string) (o : WatermarkOpts.T) :
  WatermarkAction.validate params = Ok o ->
  WatermarkAction.loop params WatermarkAction.initial = Ok o.
Proof.
  unfold WatermarkAction.validate.
  destruct (WatermarkAction.loop params WatermarkAction.initial); cbn.
  - destruct (_ && _); intros H; inversion H; reflexivity.
  - discriminate.
Qed.

Lemma loop_split (pre post : list string) (tok : string) (opt o : WatermarkOpts.T) :
  WatermarkAction.loop (pre ++ tok :: post) opt = Ok o ->
  exists o1 o2,
    WatermarkAction.loop pre opt = Ok o1
    /\ WatermarkAction.step o1 tok = Ok o2
    /\ WatermarkAction.loop post o2 = Ok o.
Proof.
  rewrite loop_app.
  destruct (WatermarkAction.loop pre opt) as [o1 |]; cbn; [ | discriminate ].
  destruct (WatermarkAction.step o1 tok) as [o2 |] eqn:Hs; cbn; [ | discriminate ].
  intros H. exists o1, o2. auto.
Qed.

(** *** What a token leaves alone *)

Ltac key_contradiction k :=
  exfalso;
  repeat match goal with
    | H : String.eqb k _ = true |- _ => apply String.eqb_eq in H
    end;
  congruence.

Lemma set_option_frame (opt o' : WatermarkOpts.T) (k kf : string) (v : option string) :
  WatermarkAction.set_option opt k v = Ok o' ->
  k <> kf ->
  Spec.stored kf o' = Spec.stored kf opt.
Proof.
  unfold WatermarkAction.set_option, bind.
  break_match; intros H Hne; inversion H; subst; clear H; try reflexivity;
    unfold Spec.stored;
    repeat match goal with
      | |- context [String.eqb kf ?l] =>
          destruct (String.eqb_spec kf l) as [-> | ?]
      end;
    try reflexivity; key_contradiction k.
Qed.

Lemma step_frame (opt o' : WatermarkOpts.T) (tok kf : string) :
  WatermarkAction.step opt tok = Ok o' ->
  WatermarkAction.key tok <> kf ->
  Spec.stored kf o' = Spec.stored kf opt.
Proof.
  unfold WatermarkAction.step.
  destruct (_ || _).
  - intros H _; inversion H; reflexivity.
  - apply set_option_frame.
Qed.

Lemma loop_frame (post : list string) (kf : string) :
  Forall (fun p => WatermarkAction.key p <> kf) post ->
  forall o1 o : WatermarkOpts.T,
    WatermarkAction.loop post o1 = Ok o ->
    Spec.stored kf o = Spec.stored kf o1.
Proof.
  induction 1 as [| p post Hp _ IH]; intros o1 o; cbn.
  - intros H; inversion H; reflexivity.
  - destruct (WatermarkAction.step o1 p) as [o2 |] eqn:Hs; cbn; [ | discriminate ].
    intros Hl. rewrite (IH _ _ Hl). eapply step_frame; eassumption.
Qed.

(** *** The range checks *)

Ltac case_key k :=
  repeat match goal with
    | |- context [String.eqb k ?l] => destruct (String.eqb_spec k l) as [-> | ?]
    end.

Ltac case_bounds :=
  repeat match goal with
    | |- context [Z.ltb ?a ?b] => destruct (Z.ltb_spec a b)
    | |- context [Z.leb ?a ?b] => destruct (Z.leb_spec a b)
    | |- context [Z.eqb ?a ?b] => destruct (Z.eqb_spec a b)
    end.

Lemma checked_bound_key (k : string) (lo hi : Z) :
  Spec.checked_bound k = Some (lo, hi) ->
  k <> "watermark" /\ k <> "".
Proof.
  unfold Spec.checked_bound. case_key k; intros H; inversion H; split; discriminate.
Qed.

Lemma set_option_out_of_range (opt : WatermarkOpts.T) (k : string)
    (v : option string) (n lo hi : Z) :
  Spec.checked_bound k = Some (lo, hi) ->
  JS.parseInt v = JS.Num n ->
  n < lo \/ hi < n ->
  Spec.raises_InvalidArgument (WatermarkAction.set_option opt k v).
Proof.
  unfold Spec.checked_bound.
  case_key k; intros H Hp Hr; inversion H; subst; clear H;
    unfold WatermarkAction.set_option; cbn; rewrite Hp; cbn;
    case_bounds; cbn; try lia; eexists; reflexivity.
Qed.

Lemma step_out_of_range (opt : WatermarkOpts.T) (tok : string) (n lo hi : Z) :
  Spec.checked_bound (WatermarkAction.key tok) = Some (lo, hi) ->
  JS.parseInt (WatermarkAction.value tok) = JS.Num n ->
  n < lo \/ hi < n ->
  Spec.raises_InvalidArgument (WatermarkAction.step opt tok).
Proof.
  intros Hb Hp Hr.
  destruct (checked_bound_key _ _ _ Hb) as [Hname Hempty].
  rewrite step_set_option by assumption.
  eapply set_option_out_of_range; eassumption.
Qed.

(** The bounded options [validate] checks agree with the documented
    bounds; it checks no bound for [t], [order] and [align]. *)
Lemma checked_bound_documented (k : string) (lo hi : Z) :
  Spec.checked_bound k = Some (lo, hi) ->
  Spec.documented_bound k = Some (lo, hi).
Proof.
  unfold Spec.checked_bound, Spec.documented_bound.
  case_key k; intros H; inversion H; reflexivity.
Qed.

Lemma documented_bound_unchecked (k : string) :
  Spec.documented_bound k <> None ->
  Spec.checked_bound k = None ->
  k = "t" \/ k = "order" \/ k = "align".
Proof.
  unfold Spec.checked_bound, Spec.documented_bound.
  case_key k; intros H1 H2; try discriminate; try congruence; auto.
Qed.

Lemma set_option_stores (opt o' : WatermarkOpts.T) (k : string)
    (v : option string) (n lo hi : Z) :
  Spec.checked_bound k = Some (lo, hi) ->
  JS.parseInt v = JS.Num n ->
  WatermarkAction.set_option opt k v = Ok o' ->
  lo <= n <= hi
  /\ Spec.stored k o' = Some (JS.Num (Spec.normalised k n)).
Proof.
  unfold Spec.checked_bound.
  case_key k; intros H Hp; inversion H; subst; clear H;
    unfold WatermarkAction.set_option, Spec.normalised; cbn; rewrite Hp; cbn;
    case_bounds; cbn; intros Ho; inversion Ho; subst; clear Ho;
    (split; [ lia | reflexivity ]).
Qed.

Lemma validate_stores (pre post : list string) (tok : string)
    (o : WatermarkOpts.T) (n lo hi : Z) :
  WatermarkAction.validate (pre ++ tok :: post) = Ok o ->
  Spec.checked_bound (WatermarkAction.key tok) = Some (lo, hi) ->
  JS.parseInt (WatermarkAction.value tok) = JS.Num n ->
  Forall (fun p => WatermarkAction.key p <> WatermarkAction.key tok) post ->
  lo <= n <= hi
  /\ Spec.stored (WatermarkAction.key tok) o
     = Some (JS.Num (Spec.normalised (WatermarkAction.key tok) n)).
Proof.
  intros Hv Hb Hp Hpost.
  apply validate_Ok_loop, loop_split in Hv.
  destruct Hv as (o1 & o2 & _ & Hstep & Hrest).
  destruct (checked_bound_key _ _ _ Hb) as [Hname Hempty].
  rewrite step_set_option in Hstep by assumption.
  destruct (set_option_stores _ _ _ _ _ _ _ Hb Hp Hstep) as [Hrange Hst].
  split; [ exact Hrange | ].
  rewrite (loop_frame _ _ Hpost _ _ Hrest). exact Hst.
Qed.

Lemma validate_out_of_range (params : list string) :
  Spec.out_of_range Spec.checked_bound params ->
  Spec.raises_InvalidArgument (WatermarkAction.validate params).
Proof.
  intros (tok & n & lo & hi & Hin & Hb & Hp & Hr).
  apply (validate_raises params tok Hin).
  intros opt. eapply step_out_of_range; eassumption.
Qed.

(** The options without a range check are stored as parsed. *)
Lemma step_unchecked (opt : WatermarkOpts.T) (tok : string) :
  In (WatermarkAction.key tok) ["t"; "order"; "align"] ->
  exists o',
    WatermarkAction.step opt tok = Ok o'
    /\ Spec.stored (WatermarkAction.key tok) o'
       = Some (JS.parseInt (WatermarkAction.value tok)).
Proof.
  cbn [In]. intros [Hk | [Hk | [Hk | []]]];
    (rewrite step_set_option by (rewrite <- Hk; discriminate));
    rewrite <- Hk; eexists; split; reflexivity.
Qed.

(** A value that is not a number is outside no interval: it passes the
    checks written as two comparisons, and fails the check of [rotate],
    written as the conjunction of the opposite comparisons. *)
Lemma set_option_not_a_number (opt : WatermarkOpts.T) :
  WatermarkAction.step opt "x_abc"
  = Ok (WatermarkOpts.set_x (Some JS.NaN) opt)
  /\ Spec.raises_InvalidArgument (WatermarkAction.step opt "rotate_abc").
Proof. split; [ reflexivity | eexists; reflexivity ]. Qed.

(** C3, as stated, fails: an opacity of 500 is outside the documented
    [0,100] and [validate] returns a record holding it. *)
Lemma validate_opacity_unchecked :
  ~ (forall params,
        Spec.out_of_range Spec.documented_bound params ->
        Spec.raises_InvalidArgument (WatermarkAction.validate params)).
Proof.
  intros H.
  destruct (H ["watermark"; "text_5L2g5aW9"; "t_500"]) as [m Hm].
  - exists "t_500", 500, 0, 100. cbn [In].
    repeat split; auto; right; lia.
  - vm_compute in Hm. discriminate.
Qed.

(** C3, amended: a token list holding an integer outside the bounds of
    [x], [y], [voffset], [interval], [size] or [rotate] makes [validate],
    a function without effects, raise [InvalidArgument]; the options [t],
    [order] and [align] are stored as parsed, without a range check. *)
Theorem validate_range_checks (params : list string) (opt : WatermarkOpts.T)
    (tok : string) :
  (Spec.out_of_range Spec.checked_bound params ->
   Spec.raises_InvalidArgument (WatermarkAction.validate params))
  /\ (In (WatermarkAction.key tok) ["t"; "order"; "align"] ->
      exists o',
        WatermarkAction.step opt tok = Ok o'
        /\ Spec.stored (WatermarkAction.key tok) o'
           = Some (JS.parseInt (WatermarkAction.value tok))).
Proof.
  split; [ apply validate_out_of_range | apply step_unchecked ].
Qed.

Lemma validate_range_checks_witness :
  Spec.raises_InvalidArgument
    (WatermarkAction.validate ["watermark"; "text_5L2g5aW9"; "x_5000"])
  /\ exists o',
       WatermarkAction.step WatermarkAction.initial "t_500" = Ok o'
       /\ Spec.stored "t" o' = Some (JS.Num 500).
Proof.
  destruct (validate_range_checks
              ["watermark"; "text_5L2g5aW9"; "x_5000"]
              WatermarkAction.initial "t_500") as [Hchecked Hfree].
  split.
  - apply Hchecked. exists "x_5000", 5000, 0, 4096. cbn [In].
    repeat split; auto; right; lia.
  - apply Hfree. cbn. auto.
Defined.

Lemma option_rejected (pre post : list string) (tok : string) (n lo hi : Z) :
  Spec.checked_bound (WatermarkAction.key tok) = Some (lo, hi) ->
  JS.parseInt (WatermarkAction.value tok) = JS.Num n ->
  n < lo \/ hi < n ->
  Spec.raises_InvalidArgument (WatermarkAction.validate (pre ++ tok :: post)).
Proof.
  intros Hb Hp Hr. apply validate_out_of_range.
  exists tok, n, lo, hi. repeat split; auto.
  apply in_elt.
Qed.

Ltac reject Hk Hp lo hi :=
  let Hr := fresh "Hr" in
  intros Hr; eapply (option_rejected _ _ _ _ lo hi);
  [ rewrite Hk; reflexivity | exact Hp | exact Hr ].

Ltac accept Hk Hp :=
  let Hr := fresh "Hr" in
  let v := fresh "v" in
  let Hv := fresh "Hv" in
  intros Hr; rewrite step_set_option by (rewrite Hk; discriminate);
  rewrite Hk; pose proof Hp as Hv; revert Hv;
  match type of Hp with
  | JS.parseInt ?e = _ => generalize e
  end; intros v Hv;
  unfold WatermarkAction.set_option; cbn; rewrite Hv; cbn;
  case_bounds; cbn; try lia; reflexivity.

Ltac kept Hk Hp lo hi :=
  let o := fresh "o" in
  let Hlast := fresh "Hlast" in
  let Hv := fresh "Hv" in
  let Hb := fresh "Hb" in
  let Hst := fresh "Hst" in
  intros o Hlast Hv;
  assert (Hb : Spec.checked_bound (WatermarkAction.key _) = Some (lo, hi))
    by (rewrite Hk; reflexivity);
  destruct (validate_stores _ _ _ _ _ _ _ Hv Hb Hp Hlast) as [_ Hst];
  rewrite Hk in Hst; unfold Spec.normalised in Hst; cbn in Hst;
  congruence.

(** C4: for a token of a token list whose value parses as the integer
    [n]: a rotation outside [0,360], an [x] or [y] outside [0,4096], a
    [voffset] outside [-1000,1000], an [interval] or a [size] outside
    [0,1000] makes [validate] raise [InvalidArgument]; a rotation of 360
    is accepted and kept as 0; a value within the bounds is accepted and
    kept as it is, by the loop body and, when no later token gives the
    option again, in the record [validate] returns. *)
Theorem validate_numeric_options (pre post : list string) (tok : string)
    (n : Z) (opt : WatermarkOpts.T) :
  JS.parseInt (WatermarkAction.value tok) = JS.Num n ->
  let k := WatermarkAction.key tok in
  let params := (pre ++ tok :: post)%list in
  let last := Forall (fun p => WatermarkAction.key p <> k) post in
  (k = "rotate" ->
   (n < 0 \/ 360 < n ->
    Spec.raises_InvalidArgument (WatermarkAction.validate params))
   /\ (n = 360 ->
       WatermarkAction.step opt tok
       = Ok (WatermarkOpts.set_rotate (JS.Num 0) opt))
   /\ (0 <= n < 360 ->
       WatermarkAction.step opt tok
       = Ok (WatermarkOpts.set_rotate (JS.Num n) opt))
   /\ (forall o, last -> WatermarkAction.validate params = Ok o ->
       WatermarkOpts.rotate o = JS.Num (if n =? 360 then 0 else n)))
  /\ (k = "x" ->
      (n < 0 \/ 4096 < n ->
       Spec.raises_InvalidArgument (WatermarkAction.validate params))
      /\ (0 <= n <= 4096 ->
          WatermarkAction.step opt tok
          = Ok (WatermarkOpts.set_x (Some (JS.Num n)) opt))
      /\ (forall o, last -> WatermarkAction.validate params = Ok o ->
          WatermarkOpts.x o = Some (JS.Num n)))
  /\ (k = "y" ->
      (n < 0 \/ 4096 < n ->
       Spec.raises_InvalidArgument (WatermarkAction.validate params))
      /\ (0 <= n <= 4096 ->
          WatermarkAction.step opt tok
          = Ok (WatermarkOpts.set_y (Some (JS.Num n)) opt))
      /\ (forall o, last -> WatermarkAction.validate params = Ok o ->
          WatermarkOpts.y o = Some (JS.Num n)))
  /\ (k = "voffset" ->
      (n < -1000 \/ 1000 < n ->
       Spec.raises_InvalidArgument (WatermarkAction.validate params))
      /\ (-1000 <= n <= 1000 ->
          WatermarkAction.step opt tok
          = Ok (WatermarkOpts.set_voffset (JS.Num n) opt))
      /\ (forall o, last -> WatermarkAction.validate params = Ok o ->
          WatermarkOpts.voffset o = JS.Num n))
  /\ (k = "interval" ->
      (n < 0 \/ 1000 < n ->
       Spec.raises_InvalidArgument (WatermarkAction.validate params))
      /\ (0 <= n <= 1000 ->
          WatermarkAction.step opt tok
          = Ok (WatermarkOpts.set_interval (JS.Num n) opt))
      /\ (forall o, last -> WatermarkAction.validate params = Ok o ->
          WatermarkOpts.interval o = JS.Num n))
  /\ (k = "size" ->
      (n < 0 \/ 1000 < n ->
       Spec.raises_InvalidArgument (WatermarkAction.validate params))
      /\ (0 <= n <= 1000 ->
          WatermarkAction.step opt tok
          = Ok (WatermarkOpts.set_size (JS.Num n) opt))
      /\ (forall o, last -> WatermarkAction.validate params = Ok o ->
          WatermarkOpts.size o = JS.Num n)).
Proof.
  intros Hp k params last. subst k params last.
  repeat apply conj; intros Hk.
  - repeat apply conj;
      [ reject Hk Hp 0 360 | accept Hk Hp | accept Hk Hp | kept Hk Hp 0 360 ].
  - repeat apply conj; [ reject Hk Hp 0 4096 | accept Hk Hp | kept Hk Hp 0 4096 ].
  - repeat apply conj; [ reject Hk Hp 0 4096 | accept Hk Hp | kept Hk Hp 0 4096 ].
  - repeat apply conj;
      [ reject Hk Hp (-1000) 1000 | accept Hk Hp | kept Hk Hp (-1000) 1000 ].
  - repeat apply conj; [ reject Hk Hp 0 1000 | accept Hk Hp | kept Hk Hp 0 1000 ].
  - repeat apply conj; [ reject Hk Hp 0 1000 | accept Hk Hp | kept Hk Hp 0 1000 ].
Qed.

Lemma validate_numeric_options_witness :
  JS.parseInt (WatermarkAction.value "rotate_360") = JS.Num 360
  /\ WatermarkAction.step WatermarkAction.initial "rotate_360"
     = Ok (WatermarkOpts.set_rotate (JS.Num 0) WatermarkAction.initial)
  /\ exists o,
       WatermarkAction.validate ["watermark"; "text_5L2g5aW9"; "rotate_360"]
       = Ok o
       /\ WatermarkOpts.rotate o = JS.Num 0.
Proof.
  pose proof (validate_numeric_options
                ["watermark"; "text_5L2g5aW9"] [] "rotate_360" 360
                WatermarkAction.initial eq_refl) as H.
  cbv zeta in H. destruct H as [Hrotate _].
  destruct (Hrotate eq_refl) as (_ & H360 & _ & Hkept).
  split; [ reflexivity | ].
  split; [ apply H360; reflexivity | ].
  eexists. split; [ reflexivity | ].
  apply Hkept; [ constructor | reflexivity ].
Defined.

(** ** The format action on a gif target *)

Section FormatProcess.

Variables Sharp Buffer BufferStore : Type.
Variable toBuffer : Sharp -> result Buffer.
Variable metadata_pages : Buffer -> result (option Z).
Variable sharp_page : Buffer -> Z -> Sharp.
Variable jpeg : Sharp -> Sharp.
Variable png : Z -> Z -> Sharp -> Sharp.
Variable webp : Z -> Z -> Sharp -> Sharp.
Variable AutoWebp : string.

Local Abbreviation process :=
  (FormatAction.process Sharp Buffer BufferStore toBuffer metadata_pages
     sharp_page jpeg png webp AutoWebp).

Lemma process_gif (first : string) (c : IImageContext.T Sharp BufferStore) :
  process c [first; "gif"]
  = (match IImageContext.features c !! AutoWebp with
     | Some true => IImageContext.set_feature AutoWebp false c
     | _ => c
     end, Ok tt).
Proof. reflexivity. Qed.

(** C9, amended: with the target "gif", [process] succeeds without
    calling the engine; it leaves the image handle and the buffer store
    of the context as they are, and the feature flags as well except that
    the flag [AutoWebp], when it is set, is cleared. *)
Theorem process_gif_context (first : string)
    (c : IImageContext.T Sharp BufferStore) :
  snd (process c [first; "gif"]) = Ok tt
  /\ IImageContext.image (fst (process c [first; "gif"]))
     = IImageContext.image c
  /\ IImageContext.bufferStore (fst (process c [first; "gif"]))
     = IImageContext.bufferStore c
  /\ IImageContext.features (fst (process c [first; "gif"]))
     = match IImageContext.features c !! AutoWebp with
       | Some true => <[AutoWebp := false]> (IImageContext.features c)
       | _ => IImageContext.features c
       end.
Proof.
  rewrite process_gif. cbn [fst snd].
  destruct (IImageContext.features c !! AutoWebp) as [[|] |];
    repeat split; reflexivity.
Qed.

(** Every flag other than [AutoWebp] is as before, and a context whose
    flag [AutoWebp] is not set is returned as it is. *)
Lemma process_gif_other_flags (first k : string)
    (c : IImageContext.T Sharp BufferStore) :
  k <> AutoWebp ->
  IImageContext.features (fst (process c [first; "gif"])) !! k
  = IImageContext.features c !! k.
Proof.
  intros Hk. rewrite process_gif. cbn [fst].
  destruct (IImageContext.features c !! AutoWebp) as [[|] |]; try reflexivity.
  cbn. apply lookup_insert_ne. congruence.
Qed.

Lemma process_gif_unset (first : string)
    (c : IImageContext.T Sharp BufferStore) :
  IImageContext.features c !! AutoWebp <> Some true ->
  fst (process c [first; "gif"]) = c.
Proof.
  intros H. rewrite process_gif. cbn [fst].
  destruct (IImageContext.features c !! AutoWebp) as [[|] |];
    congruence.
Qed.

End FormatProcess.

(** C9, as stated, fails: a context whose flag [AutoWebp] is set does not
    come back unchanged from [process] with the target "gif". *)
Lemma process_gif_clears_AutoWebp :
  let c : IImageContext.T unit unit :=
    {| IImageContext.image := tt; IImageContext.bufferStore := tt;
       IImageContext.features := {["auto_webp" := true]} |} in
  IImageContext.features
    (fst (FormatAction.process unit unit unit
            (fun _ => Ok tt) (fun _ => Ok None) (fun _ _ => tt)
            (fun i => i) (fun _ _ i => i) (fun _ _ i => i)
            "auto_webp" c ["format"; "gif"])) !! "auto_webp"
  = Some false
  /\ fst (FormatAction.process unit unit unit
            (fun _ => Ok tt) (fun _ => Ok None) (fun _ _ => tt)
            (fun i => i) (fun _ _ i => i) (fun _ _ i => i)
            "auto_webp" c ["format"; "gif"]) <> c.
Proof.
  cbv zeta. split.
  - vm_compute. reflexivity.
  - intros H. apply (f_equal IImageContext.features) in H.
    apply (f_equal (fun m => m !! "auto_webp")) in H.
    vm_compute in H. discriminate.
Qed.

(** ** calculateTextSize *)

Section TextSize.

Context {num : Type} {A : Arith num}.

(** One turn of the loop adds the width of the character. *)
Lemma text_loop_cons (v : Z) (rest : list Z) (fontSize cWidth : num) :
  WatermarkAction.text_loop (v :: rest) fontSize cWidth
  = WatermarkAction.text_loop rest fontSize
      (num_add cWidth (Spec.char_width fontSize v)).
Proof.
  cbn [WatermarkAction.text_loop]. unfold Spec.char_width.
  destruct (256 <? JS.charCodeAt0 v); [ reflexivity | ].
  destruct (97 <? JS.charCodeAt0 v); reflexivity.
Qed.

Lemma text_loop_fold (text : list Z) (fontSize cWidth : num) :
  WatermarkAction.text_loop text fontSize cWidth
  = fold_left num_add (map (Spec.char_width fontSize) text) cWidth.
Proof.
  revert cWidth; induction text as [| v rest IH]; intros cWidth.
  - reflexivity.
  - rewrite text_loop_cons, IH. reflexivity.
Qed.

Lemma text_loop_app (text extra : list Z) (fontSize cWidth : num) :
  WatermarkAction.text_loop (text ++ extra) fontSize cWidth
  = WatermarkAction.text_loop extra fontSize
      (WatermarkAction.text_loop text fontSize cWidth).
Proof.
  rewrite !text_loop_fold, map_app, fold_left_app. reflexivity.
Qed.

(** C7: the width is the rounded sum, taken from zero and from left to
    right, of the widths of the characters (the font size above code 256,
    half of it above code 97, 0.8 times it otherwise) plus the margin; the
    height is the rounded product of the font size and 1.2, whatever the
    text. *)
Theorem calculateTextSize_formula (text other : list Z) (fontSize : num) :
  WatermarkTextOpts.width (WatermarkAction.calculateTextSize text fontSize)
  = num_round
      (num_add (Spec.sum (map (Spec.char_width fontSize) text))
         (num_lit (inject_Z WatermarkAction.margin)))
  /\ WatermarkTextOpts.height (WatermarkAction.calculateTextSize text fontSize)
     = num_round (num_mul fontSize (num_lit (12 # 10)))
  /\ WatermarkTextOpts.height (WatermarkAction.calculateTextSize other fontSize)
     = WatermarkTextOpts.height
         (WatermarkAction.calculateTextSize text fontSize).
Proof.
  unfold WatermarkAction.calculateTextSize, Spec.sum.
  cbn [WatermarkTextOpts.width WatermarkTextOpts.height].
  rewrite text_loop_fold. repeat split; reflexivity.
Qed.

Section Order.

Variable le : num -> num -> Prop.
Context {O : Spec.Ordered A le}.

Local Abbreviation zero := (num_lit (0 # 1)).

Lemma char_width_mono (s1 s2 : num) (v : Z) :
  le zero s1 -> le s1 s2 ->
  le (Spec.char_width s1 v) (Spec.char_width s2 v).
Proof.
  intros H0 H. unfold Spec.char_width.
  destruct (256 <? JS.charCodeAt0 v); [ exact H | ].
  destruct (97 <? JS.charCodeAt0 v).
  - apply Spec.div_lit_mono; [ reflexivity | exact H0 | exact H ].
  - apply Spec.mul_lit_mono; [ reflexivity | exact H0 | exact H ].
Qed.

Lemma char_width_nonneg (s : num) (v : Z) :
  le zero s -> le zero (Spec.char_width s v).
Proof.
  intros H. unfold Spec.char_width.
  destruct (256 <? JS.charCodeAt0 v); [ exact H | ].
  destruct (97 <? JS.charCodeAt0 v).
  - apply Spec.div_lit_nonneg; [ reflexivity | exact H ].
  - apply Spec.mul_lit_nonneg; [ reflexivity | exact H ].
Qed.

Lemma add_char_nonneg (s a : num) (v : Z) :
  le zero s -> le zero a -> le zero (num_add a (Spec.char_width s v)).
Proof.
  intros Hs Ha. apply Spec.le_trans with (b := a); [ exact Ha | ].
  apply Spec.add_nonneg; [ exact Ha | apply char_width_nonneg, Hs ].
Qed.

(** The accumulator of the loop is never negative. *)
Lemma text_loop_nonneg (text : list Z) (s a : num) :
  le zero s -> le zero a -> le zero (WatermarkAction.text_loop text s a).
Proof.
  intros Hs. revert a.
  induction text as [| v rest IH]; intros a Ha.
  - exact Ha.
  - rewrite text_loop_cons. apply IH, add_char_nonneg; assumption.
Qed.

Lemma text_loop_mono (text : list Z) (s1 s2 a1 a2 : num) :
  le zero s1 -> le s1 s2 -> le zero a1 -> le a1 a2 ->
  le (WatermarkAction.text_loop text s1 a1)
     (WatermarkAction.text_loop text s2 a2).
Proof.
  intros H0 Hs. revert a1 a2.
  induction text as [| v rest IH]; intros a1 a2 Ha0 Ha.
  - exact Ha.
  - rewrite !text_loop_cons. apply IH.
    + apply add_char_nonneg; assumption.
    + apply Spec.add_le_mono;
        [ exact Ha0 | apply char_width_nonneg, H0 | exact Ha
        | apply char_width_mono; assumption ].
Qed.

Lemma text_loop_extends (extra : list Z) (s a : num) :
  le zero s -> le zero a ->
  le a (WatermarkAction.text_loop extra s a).
Proof.
  intros Hs. revert a.
  induction extra as [| v rest IH]; intros a Ha.
  - exact (Spec.le_refl_r _ _ Ha).
  - rewrite text_loop_cons.
    apply Spec.le_trans with (b := num_add a (Spec.char_width s v)).
    + apply Spec.add_nonneg; [ exact Ha | apply char_width_nonneg, Hs ].
    + apply IH, add_char_nonneg; assumption.
Qed.


End Order.

End TextSize.

(** Exact rational arithmetic is ordered. *)
Lemma exact_ordered : Spec.Ordered Exact.arith Qle.
Proof.
  constructor;
    cbn [num_lit num_add num_mul num_div num_round Exact.arith].
  - intros a b _. apply Qle_refl.
  - intros a b _. apply Qle_refl.
  - apply Qle_trans.
  - intros p q H. exact H.
  - intros a b c d _ _. apply Qplus_le_compat.
  - intros a w _ Hw. apply Qle_trans with (y := (a + 0)%Q).
    + rewrite Qplus_0_r. apply Qle_refl.
    + apply Qplus_le_compat; [ apply Qle_refl | exact Hw ].
  - intros q a b Hq _ Hab.
    apply Qmult_le_compat_r; [ exact Hab | apply Qlt_le_weak, Hq ].
  - intros q a b Hq _ Hab. unfold Qdiv.
    apply Qmult_le_compat_r; [ exact Hab | ].
    apply Qinv_le_0_compat, Qlt_le_weak, Hq.
  - intros q a Hq Ha.
    apply Qmult_le_0_compat; [ exact Ha | apply Qlt_le_weak, Hq ].
  - intros q a Hq Ha. unfold Qdiv. apply Qmult_le_0_compat; [ exact Ha | ].
    apply Qinv_le_0_compat, Qlt_le_weak, Hq.
  - intros a b _ Hab. unfold JS.Math_round. rewrite <- Zle_Qle.
    apply Qfloor_resp_le, Qplus_le_compat; [ exact Hab | apply Qle_refl ].
Qed.


(** ** calculateImgPos *)

(** When the offsets given are not zero, and the flipped vertical offset
    of the gravity "south" is not zero either, the position is resolved
    as documented. *)
Lemma calculateImgPos_nonzero (opt : WatermarkOpts.T) (w h mw mh ox oy : Z) :
  w <> 0 -> h <> 0 -> mw <> 0 -> mh <> 0 ->
  WatermarkOpts.x opt = Some (JS.Num ox) -> ox <> 0 ->
  WatermarkOpts.y opt = Some (JS.Num oy) -> oy <> 0 ->
  (WatermarkOpts.g opt = "south" -> h - mh - oy <> 0) ->
  let g := WatermarkOpts.g opt in
  let pos :=
    WatermarkAction.calculateImgPos opt
      {| Metadata.width := Some w; Metadata.height := Some h |}
      {| Metadata.width := Some mw; Metadata.height := Some mh |} in
  WatermarkImgOpts.y pos
  = (if JS.includes ["east"; "west"; "center"] g
     then Some (JS.add (JS.Num (WatermarkAction.centre h mh))
                  (WatermarkOpts.voffset opt))
     else if JS.startsWith g "south" then Some (JS.Num (h - mh - oy))
     else Some (JS.Num oy))
  /\ WatermarkImgOpts.x pos
     = (if JS.includes ["north"; "south"] g
        then Some (JS.Num (WatermarkAction.centre w mw))
        else if JS.endsWith g "east" then Some (JS.Num (w - mw - ox))
        else if String.eqb g "center"
        then Some (JS.Num (WatermarkAction.centre w mw))
        else Some (JS.Num ox)).
Proof.
  intros Hw Hh Hmw Hmh Hx Hox Hy Hoy Hsouth g pos. subst pos g.
  unfold WatermarkAction.calculateImgPos.
  cbn [Metadata.width Metadata.height].
  rewrite Hx, Hy. cbn [JS.truthy_number JS.sub].
  destruct (Z.eqb_spec mw 0), (Z.eqb_spec w 0), (Z.eqb_spec mh 0),
    (Z.eqb_spec h 0), (Z.eqb_spec ox 0), (Z.eqb_spec oy 0); try contradiction.
  cbn [negb andb].
  destruct (JS.includes ["east"; "west"; "center"] (WatermarkOpts.g opt)) eqn:Hewc.
  - assert (Hns : JS.includes ["north"; "south"] (WatermarkOpts.g opt) = false).
    { revert Hewc. unfold JS.includes. cbn [existsb].
      case_key (WatermarkOpts.g opt); cbn; congruence. }
    rewrite Hns. split; reflexivity.
  - destruct (JS.includes ["north"; "south"] (WatermarkOpts.g opt)) eqn:Hns.
    + cbn [WatermarkImgOpts.x WatermarkImgOpts.y]. split; [ | reflexivity ].
      revert Hns Hsouth. unfold JS.includes. cbn [existsb].
      destruct (String.eqb_spec (WatermarkOpts.g opt) "north") as [-> | Hn].
      * intros _ _. cbn. case_bounds; [ contradiction | reflexivity ].
      * destruct (String.eqb_spec (WatermarkOpts.g opt) "south") as [-> | Hs];
          [ | discriminate ].
        intros _ Hsouth. specialize (Hsouth eq_refl).
        cbn. case_bounds; [ contradiction | reflexivity ].
    + split; reflexivity.
Qed.

(** C5: an explicit vertical offset of zero is not honored.  The tokens
    below are accepted by [validate], with [y] set to 0; for the gravity
    "southeast" the documented vertical position is the background height
    minus the mark height minus [y], here 80, and [calculateImgPos]
    leaves the vertical position undefined. *)
Theorem calculateImgPos_zero_offset :
  exists o,
    WatermarkAction.validate
      ["watermark"; "image_aW1nLnBuZw"; "g_southeast"; "x_10"; "y_0"] = Ok o
    /\ WatermarkOpts.g o = "southeast"
    /\ WatermarkOpts.x o = Some (JS.Num 10)
    /\ WatermarkOpts.y o = Some (JS.Num 0)
    /\ WatermarkAction.calculateImgPos o
         {| Metadata.width := Some 100; Metadata.height := Some 100 |}
         {| Metadata.width := Some 20; Metadata.height := Some 20 |}
       = {| WatermarkImgOpts.x := Some (JS.Num 70);
            WatermarkImgOpts.y := None |}.
Proof. eexists. repeat split; reflexivity. Qed.

(** An explicit horizontal offset of zero is dropped in the same way, and
    for the gravity "south" a vertical offset whose flipped value is zero
    is replaced by the bottom position. *)
Lemma calculateImgPos_x_zero_dropped :
  WatermarkAction.calculateImgPos
    (WatermarkOpts.set_g "northwest"
       (WatermarkOpts.set_x (Some (JS.Num 0))
          (WatermarkOpts.set_y (Some (JS.Num 5)) WatermarkAction.initial)))
    {| Metadata.width := Some 100; Metadata.height := Some 100 |}
    {| Metadata.width := Some 20; Metadata.height := Some 20 |}
  = {| WatermarkImgOpts.x := None; WatermarkImgOpts.y := Some (JS.Num 5) |}.
Proof. reflexivity. Qed.

Lemma calculateImgPos_south_flipped_zero :
  WatermarkAction.calculateImgPos
    (WatermarkOpts.set_g "south"
       (WatermarkOpts.set_y (Some (JS.Num 80)) WatermarkAction.initial))
    {| Metadata.width := Some 100; Metadata.height := Some 100 |}
    {| Metadata.width := Some 20; Metadata.height := Some 20 |}
  = {| WatermarkImgOpts.x := Some (JS.Num 40);
       WatermarkImgOpts.y := Some (JS.Num 80) |}.
Proof. reflexivity. Qed.

(** The runtime arithmetic on an example of the monotonicity. *)
Example calculateTextSize_float_monotone_example :
  PrimFloat.leb
    (WatermarkTextOpts.width
       (WatermarkAction.calculateTextSize (A := Float64.arith)
          [98; 65; 65; 65; 65; 65] 13%float))
    (WatermarkTextOpts.width
       (WatermarkAction.calculateTextSize (A := Float64.arith)
          [98; 65; 65; 65; 65; 65; 65] 14%float)) = true.
Proof. reflexivity. Qed.

(** * Further properties *)

(** ** The format action *)

Lemma includes_In (l : list string) (s : string) :
  JS.includes l s = true <-> In s l.
Proof.
  unfold JS.includes. rewrite existsb_exists. split.
  - intros (x & Hin & Heq). apply String.eqb_eq in Heq. subst. exact Hin.
  - intros Hin. exists s. split; [ exact Hin | apply String.eqb_refl ].
Qed.

Lemma format_validate_supported (first f : string) :
  In f FormatAction.SUPPORTED_FORMAT ->
  FormatAction.validate [first; f] = Ok {| FormatOpts.format := f |}.
Proof.
  intros Hin. unfold FormatAction.validate.
  cbn [List.length Nat.eqb negb nth FormatOpts.format].
  apply includes_In in Hin. rewrite Hin. reflexivity.
Qed.

(** X1: the format action accepts exactly the token lists of two tokens
    whose second token is one of jpg, jpeg, png, webp and gif, and returns
    that token as the format; every other list makes it raise
    [InvalidArgument]. *)
Theorem format_validate_accepts (params : list string) :
  (forall o,
      FormatAction.validate params = Ok o <->
      exists first f,
        params = [first; f]
        /\ In f FormatAction.SUPPORTED_FORMAT
        /\ o = {| FormatOpts.format := f |})
  /\ ((forall first f,
          params = [first; f] -> ~ In f FormatAction.SUPPORTED_FORMAT)
      -> Spec.raises_InvalidArgument (FormatAction.validate params)).
Proof.
  unfold FormatAction.validate. split.
  - intros o. split.
    + destruct params as [| first [| f [| third rest]]]; cbn [List.length Nat.eqb negb];
        try discriminate.
      cbn [nth FormatOpts.format].
      destruct (JS.includes FormatAction.SUPPORTED_FORMAT f) eqn:Hf;
        cbn [negb]; [ | discriminate ].
      intros H; inversion H; subst. exists first, f.
      repeat split. apply includes_In, Hf.
    + intros (first & f & -> & Hin & ->). cbn [List.length Nat.eqb negb nth FormatOpts.format].
      apply includes_In in Hin. rewrite Hin. reflexivity.
  - intros Hno.
    destruct params as [| first [| f [| third rest]]]; cbn [List.length Nat.eqb negb];
      try (eexists; reflexivity).
    cbn [nth FormatOpts.format].
    destruct (JS.includes FormatAction.SUPPORTED_FORMAT f) eqn:Hf; cbn [negb].
    + exfalso. apply (Hno first f eq_refl). apply includes_In, Hf.
    + eexists; reflexivity.
Qed.

Section FormatHooks.

Variables Sharp Buffer BufferStore : Type.
Variable toBuffer : Sharp -> result Buffer.
Variable metadata_pages : Buffer -> result (option Z).
Variable sharp_page : Buffer -> Z -> Sharp.
Variable jpeg : Sharp -> Sharp.
Variable png : Z -> Z -> Sharp -> Sharp.
Variable webp : Z -> Z -> Sharp -> Sharp.
Variables AutoWebp ReadAllAnimatedFrames : string.

Local Abbreviation hook :=
  (FormatAction.beforeNewContext ReadAllAnimatedFrames).

Local Abbreviation run :=
  (FormatAction.process Sharp Buffer BufferStore toBuffer metadata_pages
     sharp_page jpeg png webp AutoWebp).

Lemma hook_supported (features : gmap string bool) (first f : string) :
  In f FormatAction.SUPPORTED_FORMAT ->
  hook features [first; f]
  = (<[ReadAllAnimatedFrames := Props.animated_format f]> features, Ok tt).
Proof.
  intros Hin. unfold FormatAction.beforeNewContext.
  rewrite (format_validate_supported first f Hin). cbn [FormatOpts.format].
  unfold JS.includes, Props.animated_format. cbn [existsb].
  rewrite orb_false_r. destruct (_ || _); reflexivity.
Qed.

Lemma hook_rejected (features : gmap string bool) (params : list string) (e : exn) :
  FormatAction.validate params = Throw e ->
  hook features params = (features, Throw e).
Proof.
  intros H. unfold FormatAction.beforeNewContext. rewrite H. reflexivity.
Qed.

(** X2: for a supported format the hook succeeds, sets the flag
    [ReadAllAnimatedFrames] to true for webp and gif and to false for the
    other formats, and changes no other flag; the hook of a later format
    action overwrites the flag of an earlier one; invalid parameters make
    it throw and leave the flags as they were. *)
Theorem beforeNewContext_flag (features : gmap string bool)
    (first f first' f' : string) :
  In f FormatAction.SUPPORTED_FORMAT ->
  In f' FormatAction.SUPPORTED_FORMAT ->
  snd (hook features [first; f]) = Ok tt
  /\ fst (hook features [first; f]) !! ReadAllAnimatedFrames
     = Some (Props.animated_format f)
  /\ (forall k, k <> ReadAllAnimatedFrames ->
      fst (hook features [first; f]) !! k = features !! k)
  /\ hook (fst (hook features [first; f])) [first'; f']
     = hook features [first'; f']
  /\ (forall params e,
      FormatAction.validate params = Throw e ->
      hook features params = (features, Throw e)).
Proof.
  intros Hf Hf'. rewrite !hook_supported by assumption. cbn [fst snd].
  repeat split.
  - apply lookup_insert_eq.
  - intros k Hk. apply lookup_insert_ne. congruence.
  - rewrite insert_insert_eq. reflexivity.
  - intros params e. apply hook_rejected.
Qed.

(** X3: whatever the parameters and whatever the engine answers,
    [process] leaves the buffer store and every flag other than
    [AutoWebp] as they were, never leaves the flag [AutoWebp] set, and,
    when it throws, leaves the image handle as it was. *)
Theorem format_process_frame (c : IImageContext.T Sharp BufferStore)
    (params : list string) :
  IImageContext.bufferStore (fst (run c params)) = IImageContext.bufferStore c
  /\ (forall k, k <> AutoWebp ->
      IImageContext.features (fst (run c params)) !! k
      = IImageContext.features c !! k)
  /\ IImageContext.features (fst (run c params)) !! AutoWebp <> Some true
  /\ (forall e, snd (run c params) = Throw e ->
      IImageContext.image (fst (run c params)) = IImageContext.image c).
Proof.
  unfold FormatAction.process.
  set (c0 := match IImageContext.features c !! AutoWebp with
             | Some true => IImageContext.set_feature AutoWebp false c
             | _ => c
             end).
  assert (H0 : IImageContext.bufferStore c0 = IImageContext.bufferStore c
               /\ (forall k, k <> AutoWebp ->
                   IImageContext.features c0 !! k = IImageContext.features c !! k)
               /\ IImageContext.features c0 !! AutoWebp <> Some true
               /\ IImageContext.image c0 = IImageContext.image c).
  { subst c0.
    destruct (IImageContext.features c !! AutoWebp) as [[|] |] eqn:Hl; cbn;
      repeat split; try congruence.
    - intros k Hk. apply lookup_insert_ne. congruence.
    - rewrite lookup_insert_eq. discriminate. }
  clearbody c0. destruct H0 as (Hb & Hf & Ha & Hi).
  break_match; cbn; repeat split; try assumption; try discriminate;
    intros; assumption.
Qed.

(** X4: when the engine answers, [process] with a target other than gif
    succeeds and sets the encoder of the target on the image handle.  The
    handle is the one of the context unless the source is animated (it
    has a page count above zero) and the target is jpg, jpeg or png: the
    source is then opened again at its first page. *)
Theorem format_process_encoder (c : IImageContext.T Sharp BufferStore)
    (first f : string) (buffer : Buffer) (pages : option Z) :
  In f ["jpg"; "jpeg"; "png"; "webp"] ->
  toBuffer (IImageContext.image c) = Ok buffer ->
  metadata_pages buffer = Ok pages ->
  let animated :=
    match pages with
    | Some p => 0 <? p
    | None => false
    end in
  let opened :=
    if animated then sharp_page buffer 0 else IImageContext.image c in
  snd (run c [first; f]) = Ok tt
  /\ IImageContext.image (fst (run c [first; f]))
     = (if String.eqb f "webp" then webp 2 80 (IImageContext.image c)
        else if String.eqb f "png" then png 2 80 opened
        else jpeg opened).
Proof.
  intros Hf Hb Hp animated opened. subst animated opened.
  unfold FormatAction.process.
  assert (Hsup : In f FormatAction.SUPPORTED_FORMAT).
  { cbn in Hf |- *. tauto. }
  rewrite (format_validate_supported first f Hsup). cbn [FormatOpts.format].
  assert (Himg : forall k b (x : IImageContext.T Sharp BufferStore),
             IImageContext.image (IImageContext.set_feature k b x)
             = IImageContext.image x) by reflexivity.
  assert (Hc0 : IImageContext.image
                  match IImageContext.features c !! AutoWebp with
                  | Some true => IImageContext.set_feature AutoWebp false c
                  | _ => c
                  end = IImageContext.image c).
  { destruct (IImageContext.features c !! AutoWebp) as [[|] |]; reflexivity. }
  set (c0 := match IImageContext.features c !! AutoWebp with
             | Some true => IImageContext.set_feature AutoWebp false c
             | _ => c
             end) in *.
  clearbody c0.
  cbn in Hf. destruct Hf as [<- | [<- | [<- | [<- | []]]]]; cbn;
    rewrite Hc0, Hb, Hp; destruct pages as [p |]; cbn;
    try (destruct (Z.eqb_spec p 0); destruct (Z.ltb_spec 0 p); try lia);
    cbn; rewrite ?Hc0; split; reflexivity.
Qed.

End FormatHooks.

Lemma beforeNewContext_flag_witness :
  fst (FormatAction.beforeNewContext "read_all_anim_frames"
         {["auto_webp" := true]} ["format"; "gif"]) !! "read_all_anim_frames"
  = Some true
  /\ fst (FormatAction.beforeNewContext "read_all_anim_frames"
            {["auto_webp" := true]} ["format"; "gif"]) !! "auto_webp"
     = Some true.
Proof.
  assert (Hgif : In "gif" FormatAction.SUPPORTED_FORMAT) by (cbn; tauto).
  destruct (beforeNewContext_flag "read_all_anim_frames"
              {["auto_webp" := true]} "format" "gif" "format" "gif" Hgif Hgif)
    as (_ & Hflag & Hother & _).
  split.
  - exact Hflag.
  - rewrite Hother by discriminate. apply lookup_singleton_eq.
Defined.


Lemma format_process_encoder_witness :
  let c : IImageContext.T string unit :=
    {| IImageContext.image := "animation";
       IImageContext.bufferStore := tt;
       IImageContext.features := {["auto_webp" := true]} |} in
  IImageContext.image
    (fst (FormatAction.process string string unit
            (fun s => Ok s) (fun _ => Ok (Some 3))
            (fun b _ => b ++ "[first page]")
            (fun s => s ++ ".jpeg") (fun _ _ s => s ++ ".png")
            (fun _ _ s => s ++ ".webp") "auto_webp" c ["format"; "jpg"]))
  = "animation[first page].jpeg".
Proof.
  cbv zeta.
  refine (proj2 (format_process_encoder string string unit
                   (fun s => Ok s) (fun _ => Ok (Some 3))
                   (fun b _ => b ++ "[first page]")
                   (fun s => s ++ ".jpeg") (fun _ _ s => s ++ ".png")
                   (fun _ _ s => s ++ ".webp") "auto_webp"
                   {| IImageContext.image := "animation";
                      IImageContext.bufferStore := tt;
                      IImageContext.features := {["auto_webp" := true]} |}
                   "format" "jpg" "animation" (Some 3)
                   (or_introl eq_refl) eq_refl eq_refl)).
Defined.

(** ** The records the watermark action builds *)

Ltac bool_hyps :=
  repeat match goal with
    | H : _ || _ = false |- _ => apply orb_false_iff in H; destruct H
    | H : _ && _ = true |- _ => apply andb_true_iff in H; destruct H
    | H : (_ <? _) = false |- _ => apply Z.ltb_ge in H
    | H : (_ <? _) = true |- _ => apply Z.ltb_lt in H
    | H : (_ <=? _) = true |- _ => apply Z.leb_le in H
    | H : (_ <=? _) = false |- _ => apply Z.leb_gt in H
    | H : (_ =? _) = true |- _ => apply Z.eqb_eq in H
    | H : (_ =? _) = false |- _ => apply Z.eqb_neq in H
    end.

Lemma gravityConvert_long (param g : string) :
  WatermarkAction.gravityConvert param = Ok g -> In g Spec.long_forms.
Proof.
  unfold WatermarkAction.gravityConvert, JS.includes. cbn [existsb].
  case_key param; cbn; intros H; inversion H; subst; cbn; tauto.
Qed.

Lemma initial_checked : Props.checked WatermarkAction.initial.
Proof.
  constructor; cbn; auto; try tauto; try lia.
  exists 0. split; [ reflexivity | lia ].
Qed.

Lemma set_option_checked (opt o' : WatermarkOpts.T) (k : string)
    (v : option string) :
  Props.checked opt ->
  WatermarkAction.set_option opt k v = Ok o' ->
  Props.checked o'.
Proof.
  intros [Hr Hx Hy Hv Hi Hs Hg].
  unfold WatermarkAction.set_option, bind. cbv zeta.
  destruct (JS.parseInt v) as [| z];
    break_match; intros H; inversion H; subst; clear H;
    constructor; cbn in *; try assumption; try exact I;
    bool_hyps; try lia.
  all: try (right; eapply gravityConvert_long; eassumption).
  all: try (eexists; split; [ reflexivity | lia ]).
Qed.

Lemma step_checked (opt o' : WatermarkOpts.T) (param : string) :
  Props.checked opt ->
  WatermarkAction.step opt param = Ok o' ->
  Props.checked o'.
Proof.
  intros Hc. unfold WatermarkAction.step.
  destruct (_ || _).
  - intros H; inversion H; subst; exact Hc.
  - apply set_option_checked, Hc.
Qed.

Lemma loop_checked (params : list string) (opt o : WatermarkOpts.T) :
  Props.checked opt ->
  WatermarkAction.loop params opt = Ok o ->
  Props.checked o.
Proof.
  revert opt; induction params as [| p rest IH]; intros opt Hc; cbn.
  - intros H; inversion H; subst; exact Hc.
  - destruct (WatermarkAction.step opt p) as [o1 |] eqn:Hs; cbn; [ | discriminate ].
    apply IH. eapply step_checked; eassumption.
Qed.

Lemma validate_loop_checked (params : list string) (o : WatermarkOpts.T) :
  WatermarkAction.validate params = Ok o -> Props.checked o.
Proof.
  intros Hv. apply validate_Ok_loop in Hv.
  eapply loop_checked; [ apply initial_checked | exact Hv ].
Qed.

Lemma validate_has_content (params : list string) (o : WatermarkOpts.T) :
  WatermarkAction.validate params = Ok o ->
  WatermarkOpts.text o <> [] \/ WatermarkOpts.image o <> [].
Proof.
  unfold WatermarkAction.validate.
  destruct (WatermarkAction.loop params WatermarkAction.initial) as [o1 |];
    cbn; [ | discriminate ].
  destruct (WatermarkOpts.text o1) eqn:Ht, (WatermarkOpts.image o1) eqn:Hi;
    cbn; intros H; inversion H; subst; rewrite ?Ht, ?Hi;
    try (left; discriminate); right; discriminate.
Qed.

(** X5: every record [validate] returns has a rotation that is an
    integer of [0,360), offsets [x] and [y] that are absent, [NaN] or in
    [0,4096], a [voffset] that is [NaN] or in [-1000,1000], an interval
    and a size that are [NaN] or in [0,1000], a gravity that is the alias
    "se" it starts from or one of the ten long forms, and a text or an
    image that is not empty. *)
Theorem validate_checked (params : list string) (o : WatermarkOpts.T) :
  WatermarkAction.validate params = Ok o ->
  Props.checked o
  /\ (WatermarkOpts.text o <> [] \/ WatermarkOpts.image o <> []).
Proof.
  intros Hv. split.
  - eapply validate_loop_checked, Hv.
  - eapply validate_has_content, Hv.
Qed.

Lemma validate_checked_witness :
  Props.checked
    (WatermarkOpts.set_size (JS.Num 1000)
       (WatermarkOpts.set_rotate (JS.Num 0)
          (WatermarkOpts.set_text [20320; 22909] WatermarkAction.initial))).
Proof.
  exact (proj1 (validate_checked
                  ["watermark"; "text_5L2g5aW9"; "rotate_360"; "size_1000"]
                  _ eq_refl)).
Defined.

(** ** The tokens the watermark action passes over and rejects *)

Lemma step_skipped (opt : WatermarkOpts.T) (param : string) :
  Props.skipped param = true -> WatermarkAction.step opt param = Ok opt.
Proof.
  unfold Props.skipped, WatermarkAction.step. intros ->. reflexivity.
Qed.

Lemma step_not_skipped (opt : WatermarkOpts.T) (param : string) :
  Props.skipped param = false ->
  WatermarkAction.step opt param
  = WatermarkAction.set_option opt (WatermarkAction.key param)
      (WatermarkAction.value param).
Proof.
  unfold Props.skipped, WatermarkAction.step. intros ->. reflexivity.
Qed.

Lemma loop_filter (params : list string) (opt : WatermarkOpts.T) :
  WatermarkAction.loop
    (List.filter (fun p => negb (Props.skipped p)) params) opt
  = WatermarkAction.loop params opt.
Proof.
  revert opt; induction params as [| p rest IH]; intros opt.
  - reflexivity.
  - cbn [List.filter]. destruct (Props.skipped p) eqn:Hs; cbn [negb].
    + cbn [WatermarkAction.loop]. rewrite (step_skipped opt p Hs). cbn. apply IH.
    + cbn [WatermarkAction.loop].
      destruct (WatermarkAction.step opt p); cbn; [ apply IH | reflexivity ].
Qed.

(** X6: the action name and the empty token are passed over wherever
    they stand in the token list: removing them all changes neither the
    record returned nor the exception raised. *)
Theorem validate_skips (params : list string) :
  WatermarkAction.validate
    (List.filter (fun p => negb (Props.skipped p)) params)
  = WatermarkAction.validate params.
Proof.
  unfold WatermarkAction.validate. rewrite loop_filter. reflexivity.
Qed.

Lemma set_option_unknown (opt : WatermarkOpts.T) (k : string) (v : option string) :
  ~ In k Props.known_keys ->
  WatermarkAction.set_option opt k v
  = Throw (InvalidArgument
             ("Unkown param: " ++ WatermarkAction.quote ++ k
                ++ WatermarkAction.quote)).
Proof.
  intros Hk. unfold WatermarkAction.set_option.
  case_key k; try (exfalso; apply Hk; cbn; tauto).
  reflexivity.
Qed.

Lemma set_option_flag (opt : WatermarkOpts.T) (k : string) (v : option string) :
  In k ["fill"; "auto"] ->
  v <> Some "0" -> v <> Some "1" ->
  Spec.raises_InvalidArgument (WatermarkAction.set_option opt k v).
Proof.
  cbn [In]. intros [<- | [<- | []]] H0 H1; unfold WatermarkAction.set_option; cbn.
  all: destruct v as [s |]; [ | eexists; reflexivity ].
  all: destruct (String.eqb_spec s "0"); [ congruence | ].
  all: destruct (String.eqb_spec s "1"); [ congruence | ].
  all: rewrite andb_false_r; eexists; reflexivity.
Qed.

Lemma set_option_gravity (opt : WatermarkOpts.T) (v : option string) :
  (forall s, v = Some s -> ~ In s Props.gravity_tokens) ->
  Spec.raises_InvalidArgument (WatermarkAction.set_option opt "g" v).
Proof.
  intros Hv. unfold WatermarkAction.set_option; cbn.
  destruct v as [s |]; [ | eexists; reflexivity ].
  specialize (Hv s eq_refl).
  unfold WatermarkAction.gravityConvert, JS.includes. cbn [existsb].
  case_key s; try (exfalso; apply Hv; cbn; tauto).
  cbn. eexists; reflexivity.
Qed.

(** X7: a token list raises [InvalidArgument] as soon as it holds a
    token, other than the action name and the empty token, whose key is
    not one of the fifteen option keys, or a [fill] or [auto] token whose
    value is neither "0" nor "1", or a [g] token whose value is not one of
    the nine long forms and four aliases the conversion accepts. *)
Theorem validate_rejects (params : list string) (tok : string) :
  In tok params ->
  Props.skipped tok = false ->
  ~ In (WatermarkAction.key tok) Props.known_keys
  \/ (In (WatermarkAction.key tok) ["fill"; "auto"]
      /\ WatermarkAction.value tok <> Some "0"
      /\ WatermarkAction.value tok <> Some "1")
  \/ (WatermarkAction.key tok = "g"
      /\ forall s, WatermarkAction.value tok = Some s ->
                   ~ In s Props.gravity_tokens) ->
  Spec.raises_InvalidArgument (WatermarkAction.validate params).
Proof.
  intros Hin Hs Hbad. apply (validate_raises params tok Hin).
  intros opt. rewrite (step_not_skipped opt tok Hs).
  destruct Hbad as [Hk | [(Hk & H0 & H1) | (Hk & Hv)]].
  - rewrite (set_option_unknown opt _ _ Hk). eexists; reflexivity.
  - apply set_option_flag; assumption.
  - rewrite Hk. apply set_option_gravity, Hv.
Qed.

Lemma validate_rejects_witness :
  Spec.raises_InvalidArgument
    (WatermarkAction.validate ["watermark"; "text_5L2g5aW9"; "fill_2"]).
Proof.
  apply (validate_rejects ["watermark"; "text_5L2g5aW9"; "fill_2"] "fill_2").
  - cbn. tauto.
  - reflexivity.
  - right. left. repeat split; cbn; try tauto; discriminate.
Defined.

(** ** The tokens of the watermark action as updates of the record *)

(** Whether a token is accepted does not depend on the record, and an
    accepted token sets at most the field of its key. *)
Lemma set_option_uniform (opt o' : WatermarkOpts.T) (k : string)
    (v : option string) :
  WatermarkAction.set_option opt k v = Ok o' ->
  exists f,
    Props.update k f
    /\ forall opt2, WatermarkAction.set_option opt2 k v = Ok (f opt2).
Proof.
  unfold WatermarkAction.set_option, bind. cbv zeta.
  case_key k; cbn [negb andb orb]; break_match;
    intros H; inversion H; subst; clear H;
    eexists; (split; [ | intros opt2; reflexivity ]); constructor.
Qed.

Lemma step_uniform (opt o' : WatermarkOpts.T) (param : string) :
  WatermarkAction.step opt param = Ok o' ->
  exists f,
    Props.update (WatermarkAction.key param) f
    /\ forall opt2, WatermarkAction.step opt2 param = Ok (f opt2).
Proof.
  unfold WatermarkAction.step.
  destruct (_ || _).
  - intros _. exists (fun o => o). split; [ constructor | reflexivity ].
  - apply set_option_uniform.
Qed.

Lemma update_commute (k1 k2 : string) (f1 f2 : WatermarkOpts.T -> WatermarkOpts.T) :
  Props.update k1 f1 -> Props.update k2 f2 -> k1 <> k2 ->
  forall o, f1 (f2 o) = f2 (f1 o).
Proof.
  intros H1 H2 Hne o. destruct H1, H2; try reflexivity; congruence.
Qed.

Lemma update_content (k : string) (f : WatermarkOpts.T -> WatermarkOpts.T) :
  Props.update k f -> k <> "text" -> k <> "image" ->
  forall o,
    WatermarkOpts.text (f o) = WatermarkOpts.text o
    /\ WatermarkOpts.image (f o) = WatermarkOpts.image o.
Proof.
  intros H Ht Hi o. destruct H; try (split; reflexivity); congruence.
Qed.

Lemma step_apply (opt o' : WatermarkOpts.T) (param : string)
    (f : WatermarkOpts.T -> WatermarkOpts.T) :
  WatermarkAction.step opt param = Ok o' ->
  (forall opt2, WatermarkAction.step opt2 param = Ok (f opt2)) ->
  o' = f opt.
Proof.
  intros H Hf. rewrite Hf in H. inversion H. reflexivity.
Qed.

Lemma loop_swap (p1 p2 : string) (rest : list string) (opt o : WatermarkOpts.T) :
  WatermarkAction.key p1 <> WatermarkAction.key p2 ->
  WatermarkAction.loop (p1 :: p2 :: rest) opt = Ok o ->
  WatermarkAction.loop (p2 :: p1 :: rest) opt = Ok o.
Proof.
  intros Hne. cbn [WatermarkAction.loop].
  destruct (WatermarkAction.step opt p1) as [o1 |] eqn:H1; cbn; [ | discriminate ].
  destruct (WatermarkAction.step o1 p2) as [o2 |] eqn:H2; cbn; [ | discriminate ].
  destruct (step_uniform _ _ _ H1) as (f1 & Hu1 & Hf1).
  destruct (step_uniform _ _ _ H2) as (f2 & Hu2 & Hf2).
  rewrite (step_apply _ _ _ _ H2 Hf2), (step_apply _ _ _ _ H1 Hf1).
  rewrite Hf2. cbn. rewrite Hf1. cbn.
  rewrite (update_commute _ _ _ _ Hu1 Hu2 Hne). auto.
Qed.

Lemma loop_permutation (l l' : list string) :
  Permutation l l' ->
  List.NoDup (map WatermarkAction.key l) ->
  forall opt o,
    WatermarkAction.loop l opt = Ok o -> WatermarkAction.loop l' opt = Ok o.
Proof.
  induction 1 as [| p l l' Hp IH | p1 p2 l | l l' l'' Hp1 IH1 Hp2 IH2];
    intros Hnd opt o.
  - auto.
  - cbn [WatermarkAction.loop].
    destruct (WatermarkAction.step opt p); cbn; [ | discriminate ].
    apply IH. cbn in Hnd. apply List.NoDup_cons_iff in Hnd. apply Hnd.
  - apply loop_swap. cbn in Hnd.
    apply List.NoDup_cons_iff in Hnd. destruct Hnd as [Hnotin _].
    intros Heq. apply Hnotin. rewrite Heq. left. reflexivity.
  - intros H. apply IH2.
    + eapply Permutation_NoDup; [ apply Permutation_map, Hp1 | exact Hnd ].
    + apply IH1; assumption.
Qed.

(** X8: the tokens are an unordered set: when no two tokens of a list
    have the same key, every reordering of the list is accepted exactly
    when the list is, and gives the same record. *)
Theorem validate_permutation (params params' : list string) (o : WatermarkOpts.T) :
  Permutation params params' ->
  List.NoDup (map WatermarkAction.key params) ->
  WatermarkAction.validate params = Ok o
  <-> WatermarkAction.validate params' = Ok o.
Proof.
  intros Hp Hnd.
  assert (Hnd' : List.NoDup (map WatermarkAction.key params')).
  { eapply Permutation_NoDup; [ apply Permutation_map, Hp | exact Hnd ]. }
  assert (Hgen : forall l l', Permutation l l' ->
            List.NoDup (map WatermarkAction.key l) ->
            WatermarkAction.validate l = Ok o ->
            WatermarkAction.validate l' = Ok o).
  { intros l l' Hl Hn. unfold WatermarkAction.validate.
    destruct (WatermarkAction.loop l WatermarkAction.initial) as [o1 |] eqn:H1;
      cbn; [ | discriminate ].
    rewrite (loop_permutation l l' Hl Hn _ _ H1). cbn. auto. }
  split.
  - apply Hgen; assumption.
  - apply Hgen; [ apply Permutation_sym, Hp | exact Hnd' ].
Qed.

Lemma validate_permutation_witness :
  WatermarkAction.validate ["t_80"; "g_nw"; "text_5L2g5aW9"; "watermark"]
  = WatermarkAction.validate ["watermark"; "text_5L2g5aW9"; "g_nw"; "t_80"].
Proof.
  assert (Hp : Permutation ["watermark"; "text_5L2g5aW9"; "g_nw"; "t_80"]
                           ["t_80"; "g_nw"; "text_5L2g5aW9"; "watermark"]).
  { apply Permutation_rev. }
  assert (Hnd : List.NoDup (map WatermarkAction.key
                              ["watermark"; "text_5L2g5aW9"; "g_nw"; "t_80"])).
  { cbn. repeat constructor; cbn; intuition discriminate. }
  destruct (WatermarkAction.validate ["watermark"; "text_5L2g5aW9"; "g_nw"; "t_80"])
    as [o |] eqn:Hv; [ | discriminate Hv ].
  exact (proj1 (validate_permutation _ _ o Hp Hnd) Hv).
Defined.

Lemma loop_content (params : list string) :
  Forall (fun p => WatermarkAction.key p <> "text"
                   /\ WatermarkAction.key p <> "image") params ->
  forall opt o,
    WatermarkAction.loop params opt = Ok o ->
    WatermarkOpts.text o = WatermarkOpts.text opt
    /\ WatermarkOpts.image o = WatermarkOpts.image opt.
Proof.
  induction 1 as [| p rest [Ht Hi] _ IH]; intros opt o; cbn [WatermarkAction.loop].
  - intros H; inversion H; auto.
  - destruct (WatermarkAction.step opt p) as [o1 |] eqn:Hs; cbn; [ | discriminate ].
    intros Hl. destruct (IH _ _ Hl) as [-> ->].
    destruct (step_uniform _ _ _ Hs) as (f & Hu & Hf).
    rewrite (step_apply _ _ _ _ Hs Hf).
    exact (update_content _ _ Hu Ht Hi opt).
Qed.

(** X9: a token list without a [text] and without an [image] token is
    never accepted: [validate] raises [InvalidArgument], for one of its
    tokens or, at the end, for the missing content. *)
Theorem validate_needs_content (params : list string) :
  Forall (fun p => WatermarkAction.key p <> "text"
                   /\ WatermarkAction.key p <> "image") params ->
  Spec.raises_InvalidArgument (WatermarkAction.validate params).
Proof.
  intros Hall. unfold WatermarkAction.validate.
  destruct (WatermarkAction.loop params WatermarkAction.initial) as [o |] eqn:Hl; cbn.
  - destruct (loop_content params Hall _ _ Hl) as [-> ->]. cbn.
    eexists; reflexivity.
  - destruct (loop_throws _ _ _ Hl) as [m ->]. exists m; reflexivity.
Qed.

Lemma validate_needs_content_witness :
  Spec.raises_InvalidArgument (WatermarkAction.validate ["watermark"; "g_se"; "t_80"]).
Proof.
  apply validate_needs_content.
  repeat constructor; discriminate.
Defined.

(** ** An option given twice *)

Lemma set_option_assign (opt o' : WatermarkOpts.T) (k : string)
    (v : option string) :
  WatermarkAction.set_option opt k v = Ok o' ->
  k <> "text" -> k <> "image" ->
  exists f,
    Props.assign k f
    /\ forall opt2, WatermarkAction.set_option opt2 k v = Ok (f opt2).
Proof.
  unfold WatermarkAction.set_option, bind. cbv zeta.
  case_key k; cbn [negb andb orb]; try congruence; break_match;
    intros H Ht Hi; inversion H; subst; clear H;
    eexists; (split; [ | intros opt2; reflexivity ]); constructor.
Qed.

Lemma assign_override (k : string) (f g : WatermarkOpts.T -> WatermarkOpts.T) :
  Props.assign k f -> Props.update k g -> forall o, f (g o) = f o.
Proof.
  intros Hf Hg o. destruct Hf; inversion Hg; subst; reflexivity.
Qed.

(** An update of the field of [k] moves past any other update, or is
    overridden by it. *)
Lemma update_past (k k' : string) (g h : WatermarkOpts.T -> WatermarkOpts.T) :
  Props.update k g -> Props.update k' h ->
  exists g', Props.update k g' /\ forall o, h (g o) = g' (h o).
Proof.
  intros Hg Hh. destruct (String.eqb_spec k k') as [<- | Hne].
  - destruct Hh;
      [ exists g; split; [ exact Hg | reflexivity ] | .. ];
      (exists (fun o => o); split; [ constructor | ];
       intros o; inversion Hg; subst; reflexivity).
  - exists g. split; [ exact Hg | ].
    intros o. symmetry. apply (update_commute _ _ _ _ Hg Hh Hne).
Qed.

Lemma loop_update (l : list string) (k : string)
    (g : WatermarkOpts.T -> WatermarkOpts.T) :
  Props.update k g ->
  forall o r,
    WatermarkAction.loop l (g o) = Ok r ->
    exists g' r',
      Props.update k g' /\ WatermarkAction.loop l o = Ok r' /\ r = g' r'.
Proof.
  revert g; induction l as [| p rest IH]; intros g Hg o r; cbn [WatermarkAction.loop].
  - intros H; inversion H; subst. exists g, o. auto.
  - destruct (WatermarkAction.step (g o) p) as [o1 |] eqn:Hs; cbn; [ | discriminate ].
    destruct (step_uniform _ _ _ Hs) as (h & Hh & Hstep).
    rewrite (step_apply _ _ _ _ Hs Hstep). rewrite (Hstep o). cbn.
    destruct (update_past _ _ _ _ Hg Hh) as (g' & Hg' & Hpast).
    rewrite Hpast. apply IH, Hg'.
Qed.

(** X10: when an option other than [text] and [image] is given twice,
    the later token wins: in an accepted token list, an earlier token
    with the key of a later one can be removed without changing the
    record returned. *)
Theorem validate_last_wins (pre mid post : list string) (p1 p2 : string)
    (o : WatermarkOpts.T) :
  WatermarkAction.validate (pre ++ p1 :: mid ++ p2 :: post) = Ok o ->
  WatermarkAction.key p1 = WatermarkAction.key p2 ->
  Props.skipped p2 = false ->
  WatermarkAction.key p2 <> "text" ->
  WatermarkAction.key p2 <> "image" ->
  WatermarkAction.validate (pre ++ mid ++ p2 :: post) = Ok o.
Proof.
  intros Hv Hkey Hskip Ht Hi.
  assert (Hloop : forall l l',
             WatermarkAction.loop l WatermarkAction.initial = Ok o ->
             WatermarkAction.loop l' WatermarkAction.initial
             = WatermarkAction.loop l WatermarkAction.initial ->
             WatermarkAction.validate l = Ok o ->
             WatermarkAction.validate l' = Ok o).
  { intros l l' _ Heq. unfold WatermarkAction.validate. rewrite Heq. auto. }
  pose proof (validate_Ok_loop _ _ Hv) as Hl.
  apply (Hloop _ _ Hl); [ | exact Hv ]. rewrite Hl. clear Hloop Hv.
  rewrite loop_app in Hl |- *.
  destruct (WatermarkAction.loop pre WatermarkAction.initial) as [o0 |];
    cbn in Hl |- *; [ | discriminate ].
  destruct (WatermarkAction.step o0 p1) as [o1 |] eqn:Hs1; cbn in Hl;
    [ | discriminate ].
  destruct (step_uniform _ _ _ Hs1) as (g & Hg & Hstep1).
  rewrite (step_apply _ _ _ _ Hs1 Hstep1) in Hl.
  rewrite loop_app in Hl |- *.
  destruct (WatermarkAction.loop mid (g o0)) as [r |] eqn:Hmid; cbn in Hl;
    [ | discriminate ].
  destruct (loop_update mid _ g Hg _ _ Hmid) as (g' & r' & Hg' & Hmid' & ->).
  rewrite Hmid'. cbn [bind WatermarkAction.loop] in Hl |- *.
  destruct (WatermarkAction.step (g' r') p2) as [o2 |] eqn:Hs2; cbn in Hl;
    [ | discriminate ].
  rewrite (step_not_skipped _ _ Hskip) in Hs2.
  destruct (set_option_assign _ _ _ _ Hs2 Ht Hi) as (f & Hf & Hset).
  rewrite Hset in Hs2. inversion Hs2; subst o2.
  rewrite (step_not_skipped _ _ Hskip), Hset. cbn.
  rewrite Hkey in Hg'. rewrite (assign_override _ _ _ Hf Hg') in Hl.
  exact Hl.
Qed.

Lemma validate_last_wins_witness :
  WatermarkAction.validate ["watermark"; "text_5L2g5aW9"; "t_80"]
  = WatermarkAction.validate
      ["watermark"; "t_20"; "text_5L2g5aW9"; "t_80"].
Proof.
  destruct (WatermarkAction.validate
              ["watermark"; "t_20"; "text_5L2g5aW9"; "t_80"])
    as [o |] eqn:Hv; [ | discriminate Hv ].
  exact (validate_last_wins ["watermark"] ["text_5L2g5aW9"] [] "t_20" "t_80" o
           Hv eq_refl eq_refl ltac:(discriminate) ltac:(discriminate)).
Defined.

(** ** The gravities the conversion accepts and returns *)

Lemma gravityConvert_accepts (param : string) :
  In param Props.gravity_tokens ->
  exists g, WatermarkAction.gravityConvert param = Ok g.
Proof.
  cbn [In Props.gravity_tokens].
  intros H; repeat (destruct H as [<- | H]); try (eexists; reflexivity).
  destruct H.
Qed.

Lemma gravityConvert_token (param g : string) :
  WatermarkAction.gravityConvert param = Ok g ->
  In param Props.gravity_tokens.
Proof.
  unfold WatermarkAction.gravityConvert, JS.includes. cbn [existsb].
  case_key param; cbn; try tauto. discriminate.
Qed.

(** X11: [gravityConvert] accepts exactly nine long forms and four
    aliases; what it returns is one of the ten long forms, and it returns
    its own result unchanged when given it again, unless that result is
    "northeast". *)
Theorem gravityConvert_normal_form (param : string) :
  ((exists g, WatermarkAction.gravityConvert param = Ok g)
   <-> In param Props.gravity_tokens)
  /\ (forall g,
      WatermarkAction.gravityConvert param = Ok g ->
      In g Spec.long_forms
      /\ (g <> "northeast" -> WatermarkAction.gravityConvert g = Ok g)).
Proof.
  split.
  - split.
    + intros [g Hg]. eapply gravityConvert_token, Hg.
    + apply gravityConvert_accepts.
  - intros g Hg. pose proof (gravityConvert_long _ _ Hg) as Hlong.
    split; [ exact Hlong | ].
    intros Hne. cbn [In Spec.long_forms] in Hlong.
    repeat (destruct Hlong as [<- | Hlong]); try reflexivity; try contradiction.
Qed.

Lemma gravityConvert_normal_form_witness :
  In "southwest" Spec.long_forms
  /\ WatermarkAction.gravityConvert "southwest" = Ok "southwest".
Proof.
  destruct (proj2 (gravityConvert_normal_form "sw") "southwest" eq_refl)
    as [Hlong Hfix].
  split; [ exact Hlong | apply Hfix; discriminate ].
Defined.

(** ** The position of an image watermark *)

Lemma includes_false (l : list string) (s : string) :
  JS.includes l s = false <-> ~ In s l.
Proof.
  rewrite <- includes_In. destruct (JS.includes l s); split; congruence.
Qed.

(** X12: the position [calculateImgPos] resolves when the four
    dimensions are known.  Vertically: for east, west and center, the
    centred offset plus [voffset]; for north, the integer [y] given, or
    0; for south, the background height minus the mark height minus the
    integer [y] given, unless [y] or that difference is zero, and the
    background height minus the mark height then; for any other gravity
    and an integer [y] other than zero, [y], measured from the bottom when
    the gravity starts with south.  Horizontally: for north and south,
    the centred offset; for any other gravity and an integer [x] other
    than zero, [x], measured from the right when the gravity ends with
    east, and the centred offset for center. *)
Theorem calculateImgPos_resolution (opt : WatermarkOpts.T) (bw bh mw mh : Z) :
  bw <> 0 -> bh <> 0 -> mw <> 0 -> mh <> 0 ->
  let pos :=
    WatermarkAction.calculateImgPos opt
      {| Metadata.width := Some bw; Metadata.height := Some bh |}
      {| Metadata.width := Some mw; Metadata.height := Some mh |} in
  let g := WatermarkOpts.g opt in
  (In g ["east"; "west"; "center"] ->
   WatermarkImgOpts.y pos
   = Some (JS.add (JS.Num (WatermarkAction.centre bh mh))
             (WatermarkOpts.voffset opt)))
  /\ (g = "north" ->
      WatermarkImgOpts.y pos
      = Some (match WatermarkOpts.y opt with
              | Some (JS.Num oy) => JS.Num oy
              | _ => JS.Num 0
              end))
  /\ (g = "south" ->
      WatermarkImgOpts.y pos
      = Some (match WatermarkOpts.y opt with
              | Some (JS.Num oy) =>
                  if (oy =? 0) || (bh - mh - oy =? 0) then JS.Num (bh - mh)
                  else JS.Num (bh - mh - oy)
              | _ => JS.Num (bh - mh)
              end))
  /\ (~ In g ["east"; "west"; "center"; "north"; "south"] ->
      forall oy, WatermarkOpts.y opt = Some (JS.Num oy) -> oy <> 0 ->
      WatermarkImgOpts.y pos
      = Some (JS.Num (if JS.startsWith g "south" then bh - mh - oy else oy)))
  /\ (In g ["north"; "south"] ->
      WatermarkImgOpts.x pos = Some (JS.Num (WatermarkAction.centre bw mw)))
  /\ (~ In g ["north"; "south"] ->
      forall ox, WatermarkOpts.x opt = Some (JS.Num ox) -> ox <> 0 ->
      WatermarkImgOpts.x pos
      = Some (JS.Num (if JS.endsWith g "east" then bw - mw - ox
                      else if String.eqb g "center"
                      then WatermarkAction.centre bw mw
                      else ox))).
Proof.
  intros Hbw Hbh Hmw Hmh pos g. subst pos g.
  unfold WatermarkAction.calculateImgPos. cbn [Metadata.width Metadata.height].
  destruct (Z.eqb_spec mw 0), (Z.eqb_spec bw 0), (Z.eqb_spec mh 0),
    (Z.eqb_spec bh 0); try contradiction.
  cbn [negb andb].
  repeat apply conj.
  - intros Hg. pose proof Hg as Hewc. apply includes_In in Hewc. rewrite Hewc.
    assert (Hns : JS.includes ["north"; "south"] (WatermarkOpts.g opt) = false).
    { apply includes_false. cbn in Hg |- *. intuition congruence. }
    rewrite Hns. reflexivity.
  - intros ->. cbn.
    destruct (WatermarkOpts.y opt) as [[| oy] |]; cbn; try reflexivity.
    destruct (Z.eqb_spec oy 0) as [-> | Hoy]; cbn; [ reflexivity | ].
    destruct (Z.eqb_spec oy 0); [ contradiction | reflexivity ].
  - intros ->. cbn.
    destruct (WatermarkOpts.y opt) as [[| oy] |]; cbn; try reflexivity.
    destruct (Z.eqb_spec oy 0) as [-> | Hoy]; cbn; [ reflexivity | ].
    destruct (Z.eqb_spec (bh - mh - oy) 0); reflexivity.
  - intros Hg oy Hy Hoy.
    assert (Hewc : JS.includes ["east"; "west"; "center"] (WatermarkOpts.g opt)
                   = false).
    { apply includes_false. cbn in Hg |- *. tauto. }
    assert (Hns : JS.includes ["north"; "south"] (WatermarkOpts.g opt) = false).
    { apply includes_false. cbn in Hg |- *. tauto. }
    rewrite Hewc, Hns, Hy. cbn.
    destruct (Z.eqb_spec oy 0); [ contradiction | ].
    cbn. destruct (JS.startsWith _ _); reflexivity.
  - intros Hg. apply includes_In in Hg. rewrite Hg. reflexivity.
  - intros Hg ox Hx Hox. apply includes_false in Hg. rewrite Hg, Hx. cbn.
    destruct (Z.eqb_spec ox 0); [ contradiction | ].
    cbn. break_match; reflexivity.
Qed.

Lemma calculateImgPos_resolution_witness :
  WatermarkAction.calculateImgPos
    (WatermarkOpts.set_g "southeast"
       (WatermarkOpts.set_x (Some (JS.Num 10))
          (WatermarkOpts.set_y (Some (JS.Num 15)) WatermarkAction.initial)))
    {| Metadata.width := Some 100; Metadata.height := Some 100 |}
    {| Metadata.width := Some 20; Metadata.height := Some 20 |}
  = {| WatermarkImgOpts.x := Some (JS.Num 70);
       WatermarkImgOpts.y := Some (JS.Num 65) |}.
Proof.
  destruct (calculateImgPos_resolution
              (WatermarkOpts.set_g "southeast"
                 (WatermarkOpts.set_x (Some (JS.Num 10))
                    (WatermarkOpts.set_y (Some (JS.Num 15))
                       WatermarkAction.initial)))
              100 100 20 20
              ltac:(discriminate) ltac:(discriminate) ltac:(discriminate)
              ltac:(discriminate)) as (_ & _ & _ & Hy & _ & Hx).
  cbv zeta in Hy, Hx.
  assert (Hgy : ~ In "southeast" ["east"; "west"; "center"; "north"; "south"])
    by (cbn; intuition discriminate).
  assert (Hgx : ~ In "southeast" ["north"; "south"])
    by (cbn; intuition discriminate).
  specialize (Hy Hgy 15 eq_refl ltac:(discriminate)).
  specialize (Hx Hgx 10 eq_refl ltac:(discriminate)).
  revert Hy Hx.
  destruct (WatermarkAction.calculateImgPos _ _ _) as [px py].
  cbn. intros -> ->. reflexivity.
Defined.


(** X13: which offsets [calculateImgPos] defines.  When a dimension of
    the background or of the mark is unknown it defines none.  Otherwise,
    for the gravities north and south it defines both; for east, west and
    center it defines the vertical one, and the horizontal one exactly
    when [x] is given and is neither zero nor [NaN]; for every other
    gravity it defines each offset exactly when the option of the same
    name is given and is neither zero nor [NaN]. *)
Theorem calculateImgPos_defined (opt : WatermarkOpts.T)
    (metadata markMetadata : Metadata.T) :
  let pos := WatermarkAction.calculateImgPos opt metadata markMetadata in
  let g := WatermarkOpts.g opt in
  let given_x := JS.truthy_opt_number (WatermarkOpts.x opt) = true in
  let given_y := JS.truthy_opt_number (WatermarkOpts.y opt) = true in
  (Props.known metadata markMetadata = false ->
   pos = {| WatermarkImgOpts.x := None; WatermarkImgOpts.y := None |})
  /\ (Props.known metadata markMetadata = true ->
      (In g ["north"; "south"] ->
       WatermarkImgOpts.x pos <> None /\ WatermarkImgOpts.y pos <> None)
      /\ (In g ["east"; "west"; "center"] ->
          WatermarkImgOpts.y pos <> None
          /\ (WatermarkImgOpts.x pos <> None <-> given_x))
      /\ (~ In g ["north"; "south"; "east"; "west"; "center"] ->
          (WatermarkImgOpts.x pos <> None <-> given_x)
          /\ (WatermarkImgOpts.y pos <> None <-> given_y))).
Proof.
  intros pos g given_x given_y. subst pos g given_x given_y.
  unfold Props.known, Props.dimension, WatermarkAction.calculateImgPos.
  destruct metadata as [[w |] [h |]], markMetadata as [[mw |] [mh |]];
    cbn [Metadata.width Metadata.height andb];
    try (split; [ reflexivity | discriminate ]);
    try (split; [ intros _; rewrite ?andb_false_r; reflexivity
                | rewrite ?andb_false_r; discriminate ]).
  destruct (negb (mw =? 0) && negb (w =? 0) && negb (mh =? 0) && negb (h =? 0));
    [ | split; [ reflexivity | discriminate ] ].
  split; [ discriminate | intros _ ].
  assert (Hx : forall (gx : option JS.number -> option JS.number),
             (forall ox, gx (Some ox) <> None) ->
             match WatermarkOpts.x opt with
             | Some ox => if JS.truthy_number ox then gx (Some ox) else None
             | None => None
             end <> None
             <-> JS.truthy_opt_number (WatermarkOpts.x opt) = true).
  { intros gx Hgx. destruct (WatermarkOpts.x opt) as [ox |]; cbn;
      [ | split; congruence ].
    destruct (JS.truthy_number ox); split; try congruence;
      intros _; apply Hgx. }
  assert (Hy : forall (gy : option JS.number -> option JS.number),
             (forall oy, gy (Some oy) <> None) ->
             match WatermarkOpts.y opt with
             | Some oy => if JS.truthy_number oy then gy (Some oy) else None
             | None => None
             end <> None
             <-> JS.truthy_opt_number (WatermarkOpts.y opt) = true).
  { intros gy Hgy. destruct (WatermarkOpts.y opt) as [oy |]; cbn;
      [ | split; congruence ].
    destruct (JS.truthy_number oy); split; try congruence;
      intros _; apply Hgy. }
  specialize (Hx (fun o =>
                    match o with
                    | Some ox =>
                        if JS.endsWith (WatermarkOpts.g opt) "east"
                        then Some (JS.sub (JS.Num (w - mw)) ox)
                        else if String.eqb (WatermarkOpts.g opt) "center"
                        then Some (JS.Num (WatermarkAction.centre w mw))
                        else Some ox
                    | None => None
                    end)).
  specialize (Hy (fun o =>
                    match o with
                    | Some oy =>
                        if JS.startsWith (WatermarkOpts.g opt) "south"
                        then Some (JS.sub (JS.Num (h - mh)) oy)
                        else Some oy
                    | None => None
                    end)).
  cbv beta iota in Hx, Hy.
  assert (Hx' := Hx ltac:(intros ox; break_match; discriminate)).
  assert (Hy' := Hy ltac:(intros oy; break_match; discriminate)).
  clear Hx Hy.
  destruct (JS.includes ["east"; "west"; "center"] (WatermarkOpts.g opt)) eqn:Hewc;
    destruct (JS.includes ["north"; "south"] (WatermarkOpts.g opt)) eqn:Hns;
    [ apply includes_In in Hewc; apply includes_In in Hns
    | apply includes_In in Hewc; apply includes_false in Hns
    | apply includes_false in Hewc; apply includes_In in Hns
    | apply includes_false in Hewc; apply includes_false in Hns ];
    cbn [WatermarkImgOpts.x WatermarkImgOpts.y].
  - exfalso. cbn in Hewc, Hns. intuition congruence.
  - split; [ | split ].
    + intros Hin. contradiction.
    + intros _. split; [ discriminate | exact Hx' ].
    + intros Hno. exfalso. apply Hno. cbn in Hewc |- *. tauto.
  - split; [ | split ].
    + intros _. split; [ discriminate | ]. break_match; discriminate.
    + intros Hin. contradiction.
    + intros Hno. exfalso. apply Hno. cbn in Hns |- *. tauto.
  - split; [ | split ].
    + intros Hin. contradiction.
    + intros Hin. contradiction.
    + intros _. split; [ exact Hx' | exact Hy' ].
Qed.

(** ** The watermark action on the image engine *)

Lemma bind_ext {A B : Type} (r : result A) (k k' : A -> result B) :
  (forall a, r = Ok a -> k a = k' a) -> bind r k = bind r k'.
Proof.
  intros H. destruct r as [a | e]; [ apply H; reflexivity | reflexivity ].
Qed.

Section WatermarkEngineProperties.

Variables Sharp Buffer BufferStore : Type.
Variable get : BufferStore -> list Z -> result Buffer.
Variable sharp : Buffer -> Sharp.
Variable create : JS.number -> JS.number -> result Sharp.
Variable png : Sharp -> Sharp.
Variable removeAlpha : Sharp -> Sharp.
Variable rotate : JS.number -> string -> Sharp -> result Sharp.
Variable resize : option JS.number -> option JS.number -> Sharp -> result Sharp.
Variable composite : list (OverlayOptions.T Buffer) -> Sharp -> result Sharp.
Variable ensureAlpha : JS.number -> Sharp -> result Sharp.
Variable toBuffer : Sharp -> result Buffer.
Variable metadata : Sharp -> result (Metadata.T * bool).
Variable calculateTextSize :
  list Z -> JS.number -> WatermarkTextOpts.T JS.number.
Variable svg :
  WatermarkTextOpts.T JS.number -> JS.number -> option string ->
  option JS.number -> list Z -> Buffer.

Local Abbreviation imgWaterMark :=
  (WatermarkEngine.imgWaterMark Sharp Buffer BufferStore get sharp png
     removeAlpha rotate resize composite ensureAlpha toBuffer metadata).

Local Abbreviation textWaterMark :=
  (WatermarkEngine.textWaterMark Sharp Buffer BufferStore sharp create png
     rotate resize composite toBuffer metadata calculateTextSize svg).

Local Abbreviation mixedWaterMark :=
  (WatermarkEngine.mixedWaterMark Sharp Buffer BufferStore get sharp create
     png removeAlpha resize composite ensureAlpha toBuffer metadata
     calculateTextSize svg).

Local Abbreviation process :=
  (WatermarkEngine.process Sharp Buffer BufferStore get sharp create png
     removeAlpha rotate resize composite ensureAlpha toBuffer metadata
     calculateTextSize svg).

Local Abbreviation fitCanvas := (WatermarkEngine.fitCanvas Sharp resize).

Local Abbreviation autoScale := (WatermarkEngine.autoScale Sharp resize).

Local Abbreviation autoResizeImg :=
  (WatermarkEngine.autoResizeImg Sharp Buffer BufferStore sharp resize
     toBuffer metadata).

Local Abbreviation autoResizeSvg :=
  (WatermarkEngine.autoResizeSvg Sharp Buffer BufferStore sharp create png
     resize composite toBuffer metadata).

Local Abbreviation textSvgImg :=
  (WatermarkEngine.textSvgImg Sharp Buffer create composite).

(** X14: [process] validates before it touches the engine: when the
    parameters are rejected it throws the [InvalidArgument] of [validate]
    and returns the context as it was.  Otherwise it runs exactly one of
    the three routines on the validated record: the mixed one when a text
    and an image are given, the text one when only a text is given, the
    image one when only an image is given; the image routine is never run
    without an image. *)
Theorem watermark_process_dispatch (c : IImageContext.T Sharp BufferStore)
    (params : list string) :
  (forall e,
      WatermarkAction.validate params = Throw e ->
      process c params = (c, Throw e)
      /\ exists message, e = InvalidArgument message)
  /\ (forall opt,
      WatermarkAction.validate params = Ok opt ->
      (WatermarkOpts.text opt <> [] /\ WatermarkOpts.image opt <> []
       /\ process c params = mixedWaterMark c opt)
      \/ (WatermarkOpts.text opt <> [] /\ WatermarkOpts.image opt = []
          /\ process c params = textWaterMark c opt)
      \/ (WatermarkOpts.text opt = [] /\ WatermarkOpts.image opt <> []
          /\ process c params = imgWaterMark c opt)).
Proof.
  unfold WatermarkEngine.process. split.
  - intros e He. rewrite He. split; [ reflexivity | ].
    eapply validate_throws, He.
  - intros opt Hopt. rewrite Hopt.
    pose proof (validate_has_content _ _ Hopt) as Hcontent.
    destruct (WatermarkOpts.text opt) as [| tc tr],
      (WatermarkOpts.image opt) as [| ic ir]; cbn.
    + destruct Hcontent as [H | H]; contradiction.
    + right. right. repeat split; discriminate.
    + right. left. repeat split; discriminate.
    + left. repeat split; discriminate.
Qed.

Lemma exceeds_known (a b : Z) :
  0 < a -> 0 < b -> WatermarkEngine.exceeds (Some a) (Some b) = (b <? a).
Proof.
  intros Ha Hb. unfold WatermarkEngine.exceeds.
  destruct (Z.eqb_spec a 0), (Z.eqb_spec b 0); lia || reflexivity.
Qed.

Lemma below_known (b t : Z) :
  0 < b -> WatermarkEngine.below (Some b) (JS.Num t) = (b <? t).
Proof.
  intros Hb. unfold WatermarkEngine.below.
  destruct (Z.eqb_spec b 0); lia || reflexivity.
Qed.

(** X15: the scaling block of [imgWaterMark].  Without [auto] the mark
    is left alone.  With [auto] and known dimensions, a mark that fits
    the background is left alone, and a mark that exceeds it in a
    dimension is resized: to one pixel less than the background in each
    dimension it exceeds, to its own size in the other, so that the size
    asked for never exceeds the background. *)
Theorem autoScale_fits (mark : Sharp) (opt : WatermarkOpts.T)
    (bw bh mw mh : Z) :
  0 < bw -> 0 < bh -> 0 < mw -> 0 < mh ->
  let metadata :=
    {| Metadata.width := Some bw; Metadata.height := Some bh |} in
  let markMetadata :=
    {| Metadata.width := Some mw; Metadata.height := Some mh |} in
  (WatermarkOpts.auto opt = false ->
   autoScale mark opt metadata markMetadata = Ok mark)
  /\ (WatermarkOpts.auto opt = true -> mw <= bw /\ mh <= bh ->
      autoScale mark opt metadata markMetadata = Ok mark)
  /\ (WatermarkOpts.auto opt = true -> bw < mw \/ bh < mh ->
      exists w h,
        autoScale mark opt metadata markMetadata
        = resize (Some (JS.Num w)) (Some (JS.Num h)) mark
        /\ w = (if bw <? mw then bw - 1 else mw)
        /\ h = (if bh <? mh then bh - 1 else mh)
        /\ 0 <= w <= bw /\ 0 <= h <= bh).
Proof.
  intros Hbw Hbh Hmw Hmh metadata0 markMetadata. subst metadata0 markMetadata.
  unfold WatermarkEngine.autoScale. cbn [Metadata.width Metadata.height].
  rewrite !exceeds_known by assumption.
  repeat split.
  - intros ->. reflexivity.
  - intros -> [Hw Hh].
    destruct (Z.ltb_spec bw mw), (Z.ltb_spec bh mh); try lia. reflexivity.
  - intros -> Hex.
    exists (if bw <? mw then bw - 1 else mw), (if bh <? mh then bh - 1 else mh).
    destruct (Z.ltb_spec bw mw), (Z.ltb_spec bh mh); try lia;
      cbn; repeat split; try reflexivity; lia.
Qed.

Lemma centre_half (a b : Z) : WatermarkAction.centre a b = (a - b + 1) / 2.
Proof.
  unfold WatermarkAction.centre, JS.Math_round, Qfloor, Qplus. cbn.
  replace ((a - b) * 2 + 1 * 2) with ((a - b + 1) * 2) by ring.
  change (Z.pos (2 * 2)) with (2 * 2).
  apply Z.div_mul_cancel_r; discriminate.
Qed.

Lemma autoScale_wide (mark : Sharp) (opt : WatermarkOpts.T) (bw bh mw mh : Z) :
  0 < bw -> 0 < bh -> 0 < mh -> mh <= bh -> bw < mw ->
  WatermarkOpts.auto opt = true ->
  autoScale mark opt
    {| Metadata.width := Some bw; Metadata.height := Some bh |}
    {| Metadata.width := Some mw; Metadata.height := Some mh |}
  = resize (Some (JS.Num (bw - 1))) (Some (JS.Num mh)) mark.
Proof.
  intros Hbw Hbh Hmh Hfit Hwide Hauto.
  unfold WatermarkEngine.autoScale. cbn [Metadata.width Metadata.height].
  rewrite Hauto, !exceeds_known by lia.
  destruct (Z.ltb_spec bw mw), (Z.ltb_spec bh mh); try lia. reflexivity.
Qed.

Lemma calculateImgPos_centred (opt : WatermarkOpts.T) (bw bh mw mh : Z) :
  0 < bw -> 0 < bh -> 0 < mw -> 0 < mh ->
  In (WatermarkOpts.g opt) ["north"; "south"] ->
  WatermarkImgOpts.x
    (WatermarkAction.calculateImgPos opt
       {| Metadata.width := Some bw; Metadata.height := Some bh |}
       {| Metadata.width := Some mw; Metadata.height := Some mh |})
  = Some (JS.Num (WatermarkAction.centre bw mw)).
Proof.
  intros Hbw Hbh Hmw Hmh Hg.
  unfold WatermarkAction.calculateImgPos. cbn [Metadata.width Metadata.height].
  destruct (Z.eqb_spec mw 0), (Z.eqb_spec bw 0), (Z.eqb_spec mh 0),
    (Z.eqb_spec bh 0); try lia.
  cbn [negb andb]. apply includes_In in Hg. rewrite Hg. reflexivity.
Qed.


(** X17: [autoResizeSvg] with [auto], a background of known dimensions
    and text metrics that are integers.  When the text metrics fit the
    background the markup bytes are returned as they are and nothing is
    rendered.  Otherwise the text canvas is rendered and resized, in each
    dimension, to the smaller of the text metric and the background. *)
Theorem autoResizeSvg_fits (source : Buffer)
    (c : IImageContext.T Sharp BufferStore) (opt : WatermarkOpts.T)
    (bw bh tw th : Z) (a0 : bool) :
  WatermarkOpts.auto opt = true ->
  metadata (IImageContext.image c)
  = Ok ({| Metadata.width := Some bw; Metadata.height := Some bh |}, a0) ->
  0 < bw -> 0 < bh ->
  let textOpt :=
    {| WatermarkTextOpts.width := JS.Num tw;
       WatermarkTextOpts.height := JS.Num th |} in
  (tw <= bw /\ th <= bh -> autoResizeSvg source c opt textOpt = Ok source)
  /\ (bw < tw \/ bh < th ->
      autoResizeSvg source c opt textOpt
      = (do overlapImg <- textSvgImg source textOpt;
         do overlapImgBuffer <- toBuffer (png overlapImg);
         do resized <-
           resize (Some (JS.Num (Z.min bw tw))) (Some (JS.Num (Z.min bh th)))
             (png (sharp overlapImgBuffer));
         toBuffer resized)).
Proof.
  intros Hauto Hm Hbw Hbh textOpt. subst textOpt.
  unfold WatermarkEngine.autoResizeSvg. rewrite Hauto, Hm.
  cbn [bind fst Metadata.width Metadata.height WatermarkTextOpts.width
         WatermarkTextOpts.height WatermarkEngine.number_of].
  rewrite !below_known by assumption.
  split.
  - intros [Hw Hh].
    destruct (Z.ltb_spec bw tw), (Z.ltb_spec bh th); try lia. reflexivity.
  - intros Hex.
    destruct (Z.ltb_spec bw tw), (Z.ltb_spec bh th); try lia; cbn [orb];
      rewrite ?(Z.min_l bw tw), ?(Z.min_r bw tw), ?(Z.min_l bh th),
        ?(Z.min_r bh th) by lia; reflexivity.
Qed.

(** X18: [autoResizeImg] with [auto], known dimensions, and an overlay
    at least as large as the text metrics.  An overlay that fits the
    background is returned as it is.  Otherwise it is rendered and
    resized, to ten pixels less than the background in each dimension it
    exceeds and to the text metric in the other, so that the size asked
    for never exceeds the background; it is not positive when the
    background measures ten pixels or less in a dimension the overlay
    exceeds. *)
Theorem autoResizeImg_fits (source : Sharp)
    (c : IImageContext.T Sharp BufferStore) (opt : WatermarkOpts.T)
    (ow oh bw bh tw th : Z) (a0 a1 : bool) :
  WatermarkOpts.auto opt = true ->
  metadata source
  = Ok ({| Metadata.width := Some ow; Metadata.height := Some oh |}, a1) ->
  metadata (IImageContext.image c)
  = Ok ({| Metadata.width := Some bw; Metadata.height := Some bh |}, a0) ->
  0 < bw -> 0 < bh -> 0 < ow -> 0 < oh ->
  tw <= ow -> th <= oh ->
  let textOpt :=
    {| WatermarkTextOpts.width := JS.Num tw;
       WatermarkTextOpts.height := JS.Num th |} in
  (ow <= bw /\ oh <= bh -> autoResizeImg source c opt textOpt = Ok source)
  /\ (bw < ow \/ bh < oh ->
      exists w h,
        autoResizeImg source c opt textOpt
        = (do overlapImgBuffer <- toBuffer source;
           resize (Some (JS.Num w)) (Some (JS.Num h)) (sharp overlapImgBuffer))
        /\ w = (if bw <? ow then bw - 10 else tw)
        /\ h = (if bh <? oh then bh - 10 else th)
        /\ w <= bw /\ h <= bh).
Proof.
  intros Hauto Hom Hm Hbw Hbh How Hoh Htw Hth textOpt. subst textOpt.
  unfold WatermarkEngine.autoResizeImg. rewrite Hauto, Hom, Hm.
  cbn [bind fst Metadata.width Metadata.height WatermarkTextOpts.width
         WatermarkTextOpts.height WatermarkEngine.minus].
  rewrite !exceeds_known by assumption.
  split.
  - intros [Hw Hh].
    destruct (Z.ltb_spec bw ow), (Z.ltb_spec bh oh); try lia. reflexivity.
  - intros Hex.
    exists (if bw <? ow then bw - 10 else tw), (if bh <? oh then bh - 10 else th).
    destruct (Z.ltb_spec bw ow), (Z.ltb_spec bh oh); try lia; cbn [orb];
      repeat split; try reflexivity; lia.
Qed.

(** X19: what an image watermark does not read.  The text, the font
    size, the colour and the three options of the mixed layout have no
    effect on it.  The opacity has none either when no mark has an alpha
    channel, or between two opacities that are not below 100: the mark
    is then composited as it is. *)
Theorem imgWaterMark_ignores (c : IImageContext.T Sharp BufferStore)
    (opt : WatermarkOpts.T) :
  (forall text size color order interval align,
      imgWaterMark c
        (WatermarkOpts.set_text text
           (WatermarkOpts.set_size size
              (WatermarkOpts.set_color color
                 (WatermarkOpts.set_order order
                    (WatermarkOpts.set_interval interval
                       (WatermarkOpts.set_align align opt))))))
      = imgWaterMark c opt)
  /\ (forall t,
      (forall s m a, metadata s = Ok (m, a) -> a = false)
      \/ (JS.lt t (JS.Num 100) = false
          /\ JS.lt (WatermarkOpts.t opt) (JS.Num 100) = false) ->
      imgWaterMark c (WatermarkOpts.set_t t opt) = imgWaterMark c opt).
Proof.
  split; [ reflexivity | ].
  intros t H. unfold WatermarkEngine.imgWaterMark. f_equal.
  apply bind_ext; intros b _.
  apply bind_ext; intros mark _.
  apply bind_ext; intros m _.
  apply bind_ext; intros mm Hmm.
  apply bind_ext; intros scaled _.
  apply bind_ext; intros bt _.
  cbn [WatermarkOpts.t WatermarkOpts.set_t].
  destruct H as [Halpha | [Ht Ht']].
  - destruct mm as [markMetadata alpha].
    rewrite (Halpha _ _ _ Hmm). cbn [snd]. rewrite !andb_false_r. reflexivity.
  - rewrite Ht, Ht'. reflexivity.
Qed.


(** X21: what a mixed watermark does not read.  The rotation, [auto],
    [x], [y] and [voffset] have no effect on it: the text is never
    rotated, the canvas is scaled down whether [auto] is set or not, and
    no offset is passed to the engine.  The opacity is not written into
    the markup, so that it has no effect either when no image has an
    alpha channel. *)
Theorem mixedWaterMark_ignores (c : IImageContext.T Sharp BufferStore)
    (opt : WatermarkOpts.T) :
  (forall rotate auto x y voffset,
      mixedWaterMark c
        (WatermarkOpts.set_rotate rotate
           (WatermarkOpts.set_auto auto
              (WatermarkOpts.set_x x
                 (WatermarkOpts.set_y y
                    (WatermarkOpts.set_voffset voffset opt)))))
      = mixedWaterMark c opt)
  /\ (forall t,
      (forall s m a, metadata s = Ok (m, a) -> a = false) ->
      mixedWaterMark c (WatermarkOpts.set_t t opt) = mixedWaterMark c opt).
Proof.
  split; [ reflexivity | ].
  intros t Halpha. unfold WatermarkEngine.mixedWaterMark. f_equal.
  apply bind_ext; intros b _.
  apply bind_ext; intros [imgMetadata alpha] Him.
  rewrite (Halpha _ _ _ Him).
  apply bind_ext; intros wbt _.
  apply bind_ext; intros bm _.
  apply bind_ext; intros canvas _.
  apply bind_ext; intros overlapImg _.
  apply bind_ext; intros fitted _.
  apply bind_ext; intros bt _.
  cbn [snd]. rewrite !andb_false_r. reflexivity.
Qed.

(** X22: the scaling block of [mixedWaterMark], for a canvas of integer
    size and a background of known dimensions.  A canvas that fits the
    background is left alone.  A canvas that exceeds it in a dimension
    is resized, to one pixel less than the background in each dimension
    it exceeds and to its own size in the other, so that the size asked
    for never exceeds the background.  A canvas whose size is not a
    number is left alone. *)
Theorem fitCanvas_fits (overlapImg : Sharp) (ew eh bw bh : Z) :
  0 < bw -> 0 < bh ->
  let backMetadata :=
    {| Metadata.width := Some bw; Metadata.height := Some bh |} in
  (ew <= bw /\ eh <= bh ->
   fitCanvas overlapImg (JS.Num ew) (JS.Num eh) backMetadata = Ok overlapImg)
  /\ (bw < ew \/ bh < eh ->
      exists w h,
        fitCanvas overlapImg (JS.Num ew) (JS.Num eh) backMetadata
        = resize (Some (JS.Num w)) (Some (JS.Num h)) overlapImg
        /\ w = (if bw <? ew then bw - 1 else ew)
        /\ h = (if bh <? eh then bh - 1 else eh)
        /\ w <= bw /\ h <= bh)
  /\ fitCanvas overlapImg JS.NaN JS.NaN backMetadata = Ok overlapImg.
Proof.
  intros Hbw Hbh backMetadata. subst backMetadata.
  unfold WatermarkEngine.fitCanvas.
  cbn [Metadata.width Metadata.height WatermarkEngine.over
         WatermarkEngine.shrink WatermarkEngine.Math_min JS.gt JS.lt JS.sub].
  destruct (Z.eqb_spec bw 0), (Z.eqb_spec bh 0); try lia.
  cbn [negb andb].
  repeat apply conj.
  - intros [Hw Hh].
    destruct (Z.ltb_spec bw ew), (Z.ltb_spec bh eh); try lia. reflexivity.
  - intros Hex.
    exists (if bw <? ew then bw - 1 else ew), (if bh <? eh then bh - 1 else eh).
    destruct (Z.ltb_spec bw ew), (Z.ltb_spec bh eh); try lia; cbn [orb];
      repeat split; try lia;
      rewrite ?Z.min_r by lia; reflexivity.
  - reflexivity.
Qed.

End WatermarkEngineProperties.

(** ** The properties on the engine that keeps dimensions *)

Lemma autoScale_fits_witness :
  exists w h,
    WatermarkEngine.autoScale Dimensions.image Dimensions.resize (200, 50)
      WatermarkAction.initial
      {| Metadata.width := Some 100; Metadata.height := Some 100 |}
      {| Metadata.width := Some 200; Metadata.height := Some 50 |}
    = Dimensions.resize (Some (JS.Num w)) (Some (JS.Num h)) (200, 50)
    /\ w = 99 /\ h = 50.
Proof.
  destruct (autoScale_fits Dimensions.image Dimensions.resize (200, 50)
              WatermarkAction.initial 100 100 200 50
              eq_refl eq_refl eq_refl eq_refl) as (_ & _ & Hscaled).
  destruct (Hscaled eq_refl (or_introl eq_refl))
    as (w & h & Heq & Hw & Hh & _).
  exists w, h. repeat split; assumption.
Defined.


Lemma autoResizeSvg_fits_witness :
  WatermarkEngine.autoResizeSvg Dimensions.image Dimensions.image unit
    Dimensions.sharp Dimensions.create Dimensions.keep Dimensions.resize
    Dimensions.composite Dimensions.toBuffer Dimensions.metadata
    (0, 0)
    {| IImageContext.image := (60, 100); IImageContext.bufferStore := tt;
       IImageContext.features := ∅ |}
    WatermarkAction.initial
    {| WatermarkTextOpts.width := JS.Num 85;
       WatermarkTextOpts.height := JS.Num 48 |}
  = Ok (60, 48).
Proof.
  destruct (autoResizeSvg_fits Dimensions.image Dimensions.image unit
              Dimensions.sharp Dimensions.create Dimensions.keep
              Dimensions.resize Dimensions.composite Dimensions.toBuffer
              Dimensions.metadata (0, 0)
              {| IImageContext.image := (60, 100);
                 IImageContext.bufferStore := tt;
                 IImageContext.features := ∅ |}
              WatermarkAction.initial 60 100 85 48 false
              eq_refl eq_refl eq_refl eq_refl) as [_ Hresized].
  rewrite (Hresized (or_introl eq_refl)). reflexivity.
Defined.

Lemma autoResizeImg_fits_witness :
  WatermarkEngine.autoResizeImg Dimensions.image Dimensions.image unit
    Dimensions.sharp Dimensions.resize Dimensions.toBuffer Dimensions.metadata
    (90, 53)
    {| IImageContext.image := (60, 100); IImageContext.bufferStore := tt;
       IImageContext.features := ∅ |}
    WatermarkAction.initial
    {| WatermarkTextOpts.width := JS.Num 85;
       WatermarkTextOpts.height := JS.Num 48 |}
  = Ok (50, 48).
Proof.
  destruct (autoResizeImg_fits Dimensions.image Dimensions.image unit
              Dimensions.sharp Dimensions.resize Dimensions.toBuffer
              Dimensions.metadata (90, 53)
              {| IImageContext.image := (60, 100);
                 IImageContext.bufferStore := tt;
                 IImageContext.features := ∅ |}
              WatermarkAction.initial 90 53 60 100 85 48 false false
              eq_refl eq_refl eq_refl eq_refl eq_refl eq_refl eq_refl
              ltac:(discriminate) ltac:(discriminate)) as [_ Hresized].
  destruct (Hresized (or_introl eq_refl)) as (w & h & Heq & -> & -> & _).
  rewrite Heq. reflexivity.
Defined.


Lemma fitCanvas_fits_witness :
  WatermarkEngine.fitCanvas Dimensions.image Dimensions.resize (130, 48)
    (JS.Num 130) (JS.Num 48)
    {| Metadata.width := Some 100; Metadata.height := Some 100 |}
  = Ok (99, 48).
Proof.
  destruct (fitCanvas_fits Dimensions.image Dimensions.resize (130, 48)
              130 48 100 100 eq_refl eq_refl) as (_ & Hresized & _).
  destruct (Hresized (or_introl eq_refl)) as (w & h & -> & -> & -> & _).
  reflexivity.
Defined.
